(** * The logarithmic tone-mapping operator (src/operators/logarithmic.h)

    A shallow embedding of [LogarithmicOperator] (Schlick 1994) and the
    properties of its constructor, [setParameters], [process], [graph] and
    [map], together with the fragment shader that the constructor embeds.

    C++ [float] is IEEE-754 binary32; its arithmetic is the Standard
    Library's [SpecFloat] at precision 24 and maximal exponent 128.  The
    functions of the C math library are not specified bit for bit by any
    standard, so they are a parameter ([libm]) of everything that calls
    them. *)

From Stdlib Require Import ZArith Lia Reals Lra Ascii String.
From Stdlib Require Import Floats.SpecFloat.
From stdpp Require Import gmap strings list.

Local Open Scope Z_scope.

(** ** binary32 *)

Module F32.

Definition prec : Z := 24.
Definition emax : Z := 128.

Definition float : Type := spec_float.

Definition add : float -> float -> float := SFadd prec emax.
Definition mul : float -> float -> float := SFmul prec emax.
Definition div : float -> float -> float := SFdiv prec emax.
Definition ltb : float -> float -> bool := SFltb.

(** Conversion of an integer, rounding to nearest even
    (the implicit [int] to [float] conversion). *)
Definition of_int (z : Z) : float := binary_normalize prec emax z 0 false.

(** A decimal literal [n / 10^k], such as [2.2f] = [dec 22 1].  Numerator
    and denominator are below [2^24] for every literal of the program,
    hence exact, and IEEE division rounds their quotient correctly: the
    result is the binary32 number nearest to the decimal. *)
Definition dec (n : Z) (k : nat) : float :=
  div (of_int n) (of_int (10 ^ Z.of_nat k)).

Definition zero : float := S754_zero false.
Definition one : float := S754_finite false 8388608 (-23).
Definition half : float := S754_finite false 8388608 (-24).
Definition infinity : float := S754_infinity false.

Definition is_zero (x : float) : bool :=
  match x with S754_zero _ => true | _ => false end.
Definition is_finite (x : float) : bool :=
  match x with S754_zero _ | S754_finite _ _ _ => true | _ => false end.
Definition is_inf_or_nan (x : float) : bool :=
  match x with S754_infinity _ | S754_nan => true | _ => false end.

(** The integer part of a finite number, rounding toward zero:
    [m * 2^e] for [e >= 0], [m / 2^(-e)] rounded down for [e < 0], then
    the sign. *)
Definition trunc (x : float) : option Z :=
  match x with
  | S754_zero _ => Some 0
  | S754_finite s m e => Some (cond_Zopp s (Z.shiftl (Zpos m) e))
  | S754_infinity _ | S754_nan => None
  end.

(** The integer nearest to a finite number (ties away from zero, as
    [roundf]); only used to tell truncation from rounding. *)
Definition nearest (x : float) : option Z :=
  match x with
  | S754_zero _ => Some 0
  | S754_finite s m e => Some (cond_Zopp s (Z.shiftl (2 * Zpos m + 2 ^ (- e)) (e - 1)))
  | S754_infinity _ | S754_nan => None
  end.

End F32.

Abbreviation float := F32.float.

(** The C math library, as far as the operator and its shader call it. *)
Record libm := Libm {
  log10f : float -> float;          (* std::log10(float) *)
  logf : float -> float;            (* GLSL log *)
  powf : float -> float -> float    (* std::pow(float, float), GLSL pow *)
}.

(** ** Scalars

    The formula is written once and read at two types: at [float], where
    it is what the program computes, and at [R], where it is the
    mathematical transform it stands for. *)

Class Scalar (T : Type) := {
  lit : Z -> nat -> T;              (* the decimal literal n / 10^k *)
  s_add : T -> T -> T;
  s_mul : T -> T -> T;
  s_div : T -> T -> T;
  s_ltb : T -> T -> bool;
  log10 : T -> T;
  log : T -> T;
  pow : T -> T -> T
}.

Declare Scope scalar_scope.
Delimit Scope scalar_scope with S.
Infix "+" := s_add : scalar_scope.
Infix "*" := s_mul : scalar_scope.
Infix "/" := s_div : scalar_scope.
Infix "<?" := s_ltb : scalar_scope.

#[export] Instance float_scalar (lm : libm) : Scalar float := {|
  lit := F32.dec;
  s_add := F32.add;
  s_mul := F32.mul;
  s_div := F32.div;
  s_ltb := F32.ltb;
  log10 := log10f lm;
  log := logf lm;
  pow := powf lm
|}.

(** On the reals [pow] is the power function with [0^y = 0], and [log10]
    is [ln x / ln 10]. *)
Definition Rpow (x y : R) : R :=
  if Req_dec_T x 0 then 0%R else Rpower x y.

#[export] Instance real_scalar : Scalar R := {|
  lit n k := (IZR n / IZR (10 ^ Z.of_nat k))%R;
  s_add := Rplus;
  s_mul := Rmult;
  s_div := Rdiv;
  s_ltb x y := if Rlt_dec x y then true else false;
  log10 x := (ln x / ln 10)%R;
  log := ln;
  pow := Rpow
|}.

(** [clamp(value, min, max)].

    Modelled from the spec: the free function [clamp] is declared outside
    the sources at hand; the spec has it clamp to the range [[min, max]].
    Written with the two comparisons of the usual definition, so a NaN,
    which compares false with everything, passes through. *)
Definition clamp {T : Type} {ops : Scalar T} (value min max : T) : T :=
  if (value <? min)%S then min
  else if (max <? value)%S then max
  else value.

(** ** Color samples

    Modelled from the spec: [Color3f] (color.h) is not among the sources.
    The spec gives it three floats r, g, b, the luminance
    [0.212671 r + 0.71516 g + 0.072169 b], [clampedValue] clamping each
    channel to [[0,1]] and [gammaCorrect] raising each channel to
    [1/gamma]; products and quotients with a scalar are channel-wise. *)
Module Color3f.
Section Color3f.
Context {T : Type} {ops : Scalar T}.

Record t := Color { r : T; g : T; b : T }.

(* scalar * color *)
Definition scale (k : T) (c : t) : t :=
  Color (k * r c)%S (k * g c)%S (k * b c)%S.

(* color / scalar *)
Definition quot (c : t) (k : T) : t :=
  Color (r c / k)%S (g c / k)%S (b c / k)%S.

Definition getLuminance (c : t) : T :=
  (lit 212671 6 * r c + lit 71516 5 * g c + lit 72169 6 * b c)%S.

Definition clampedValue (c : t) : t :=
  Color (clamp (r c) (lit 0 0) (lit 1 0))
        (clamp (g c) (lit 0 0) (lit 1 0))
        (clamp (b c) (lit 0 0) (lit 1 0)).

Definition gammaCorrect (c : t) (gamma : T) : t :=
  Color (pow (r c) (lit 1 0 / gamma)%S)
        (pow (g c) (lit 1 0 / gamma)%S)
        (pow (b c) (lit 1 0 / gamma)%S).

End Color3f.
Arguments t T : clear implicits.
End Color3f.

Abbreviation Color3 := Color3f.t.

(** ** Collaborators of the operator *)

(** Modelled from the spec: the class [Parameter] (tonemap.h), here
    [Param], is not among the sources.  The spec gives it a current value,
    a range [[min, max]], the name of the shader uniform and a description,
    and two construction forms: the user-adjustable one (value, range,
    uniform, description) and the read-only one (value and uniform only). *)
Inductive Param :=
| Adjustable (value min max : float) (uniform description : string)
| ReadOnly (value : float) (uniform : string).

Definition value (p : Param) : float :=
  match p with
  | Adjustable v _ _ _ _ => v
  | ReadOnly v _ => v
  end.

Module Vector2i.
Record t := Vec { x : Z; y : Z }.
End Vector2i.

(** Modelled from the spec: [Image] (image.h) is not among the sources.
    The spec gives it [getSize()] = (width, height), [ref(row, col)], a
    read-only color sample, and [getMaximumLuminance()], a statistic of the
    image. *)
Record Image := {
  getSize : Vector2i.t;
  ref : Z -> Z -> Color3 float;
  getMaximumLuminance : float
}.

(** What [shader->init(name, vertex, fragment)] hands to the renderer. *)
Record GLShader := {
  shader_name : string;
  vertex_source : string;
  fragment_source : string
}.

(** The fields a [LogarithmicOperator] inherits from [TonemapOperator]. *)
Record TonemapOperator := {
  parameters : gmap string Param;
  name : string;
  description : string;
  shader : GLShader
}.

(** ** Effects

    The methods act on the operator ([this]) and on the two objects the
    caller of [process] owns: the float behind [progress] and the bytes
    behind [dst].  Every store through these two pointers is logged in
    program order; [std::map::at] throws [std::out_of_range]. *)

Inductive exn := out_of_range (key : string).

Inductive result (A : Type) :=
| Ok (a : A)
| Throw (e : exn).
Arguments Ok {A} a.
Arguments Throw {A} e.

Inductive event :=
| Store_progress (v : float)       (* *progress = v *)
| Store_dst (off : Z) (byte : Z).  (* the byte at offset off of the buffer *)

Record world := World {
  this : TonemapOperator;
  progress : float;
  trace : list event
}.

Definition M (A : Type) : Type := world -> result A * world.

#[export] Instance M_ret : MRet M := fun A a w => (Ok a, w).

#[export] Instance M_bind : MBind M := fun A B f m w =>
  match m w with
  | (Ok a, w') => f a w'
  | (Throw e, w') => (Throw e, w')
  end.

#[export] Instance M_fmap : FMap M := fun A B f m w =>
  match m w with
  | (Ok a, w') => (Ok (f a), w')
  | (Throw e, w') => (Throw e, w')
  end.

Definition throw {A} (e : exn) : M A := fun w => (Throw e, w).

Definition modify_this (f : TonemapOperator -> TonemapOperator) : M unit :=
  fun w => (Ok tt, World (f (this w)) (progress w) (trace w)).

(* parameters[key] = p *)
Definition parameters_assign (key : string) (p : Param) : M unit :=
  modify_this (fun o =>
    {| parameters := <[key := p]> (parameters o); name := name o;
       description := description o; shader := shader o |}).

(* parameters.at(key) *)
Definition parameters_at (key : string) : M Param :=
  fun w => match parameters (this w) !! key with
           | Some p => (Ok p, w)
           | None => throw (out_of_range key) w
           end.

Definition set_name (s : string) : M unit :=
  modify_this (fun o =>
    {| parameters := parameters o; name := s;
       description := description o; shader := shader o |}).

Definition set_description (s : string) : M unit :=
  modify_this (fun o =>
    {| parameters := parameters o; name := name o;
       description := s; shader := shader o |}).

Definition shader_init (n v f : string) : M unit :=
  modify_this (fun o =>
    {| parameters := parameters o; name := name o;
       description := description o;
       shader := {| shader_name := n; vertex_source := v; fragment_source := f |} |}).

Definition load_progress : M float := fun w => (Ok (progress w), w).

Definition store_progress (v : float) : M unit :=
  fun w => (Ok tt, World (this w) v (trace w ++ [Store_progress v])).

(* dst[k] = byte, for the pointer at offset dst of the buffer *)
Definition store_dst (dst k : Z) (byte : Z) : M unit :=
  fun w => (Ok tt, World (this w) (progress w) (trace w ++ [Store_dst (dst + k) byte])).

(** [for (int i = 0; i < n; ++i) body], carrying the local variables that
    the body updates. *)
Fixpoint for_loop {A} (count : nat) (i : Z) (body : Z -> A -> M A) (a : A) : M A :=
  match count with
  | O => mret a
  | S count' => a' ← body i a; for_loop count' (i + 1) body a'
  end.

Definition for_ {A} (n : Z) (body : Z -> A -> M A) (a : A) : M A :=
  for_loop (Z.to_nat n) 0 body a.

(** [int * int]; a product outside the range of [int] wraps around on the
    targets the program is built for. *)
Definition int_mul (a b : Z) : Z :=
  (a * b + 2 ^ 31) mod 2 ^ 32 - 2 ^ 31.

(** The bytes that the stores leave in the buffer behind [dst].  The caller
    guarantees its capacity; a store outside it is outside this model (it
    is dropped here, and only runs that stay inside are described). *)
Definition replay_event (buf : list Z) (e : event) : list Z :=
  match e with
  | Store_progress _ => buf
  | Store_dst off byte => if 0 <=? off then <[Z.to_nat off := byte]> buf else buf
  end.

Definition replay (tr : list event) (buf : list Z) : list Z :=
  foldl replay_event buf tr.

(** ** The embedded shader text *)

Definition dquote : string := String "034"%char EmptyString.

Definition vertex_text : string := "
            #version 330
            in vec2 position;
            out vec2 uv;
            void main() {
                gl_Position = vec4(position.x*2-1, position.y*2-1, 0.0, 1.0);
                uv = vec2(position.x, 1-position.y);
            }
            ".

Definition fragment_text : string := "
            #version 330
            uniform sampler2D source;
            uniform float exposure;
            uniform float gamma;
            uniform float Lmax;
            uniform float p;
            uniform float q;
            in vec2 uv;
            out vec4 out_color;

            vec4 clampedValue(vec4 color) {
                color.a = 1.0;
                return clamp(color, 0.0, 1.0);
            }

            vec4 gammaCorrect(vec4 color) {
                return pow(color, vec4(1.0/gamma));
            }

            float getLuminance(vec4 color) {
                return 0.212671 * color.r + 0.71516 * color.g + 0.072169 * color.b;
            }

            vec4 adjustColor(vec4 color, float L, float Ld) {
                return Ld * color / L;
            }

            void main() {
                vec4 color = exposure * texture(source, uv);
                float L = getLuminance(color);
                float Ld = (log(1.0 + p * L)/log(10.0)) / (log(1.0 + q * exposure * Lmax)/log(10.0));
                color = adjustColor(color, L, Ld);
                color = clampedValue(color);
                out_color = gammaCorrect(color);
            }
            ".

Definition description_text : string :=
  "Logarthmic Mapping

Discussed in " +:+ dquote
  +:+ "Quantization Techniques for Visualization of High Dynamic Range Pictures"
  +:+ dquote +:+ " by Schlick 1994.".

(** Modelled from the spec: the constructor of the base class
    [TonemapOperator] (tonemap.h) is not among the sources.  By the spec
    the parameters of an operator are created when the operator variant is
    constructed or an image is loaded, so the base class starts from an
    empty mapping; name, description and shader are set by the variant. *)
Definition TonemapOperator_new : TonemapOperator := {|
  parameters := ∅;
  name := EmptyString;
  description := EmptyString;
  shader := {| shader_name := EmptyString; vertex_source := EmptyString;
               fragment_source := EmptyString |}
|}.

(** ** The operator *)

Module LogarithmicOperator.

Section Formula.
Context {T : Type} {ops : Scalar T}.

Definition map (Lw exposure Lmax p q : T) : T :=
  let L := (exposure * Lw)%S in
  let Ld := (log10 (lit 1 0 + p * L) / log10 (lit 1 0 + q * exposure * Lmax))%S in
  Ld.

(** The body of [graph] after the four parameters are read. *)
Definition graph_value (gamma Lmax p q value : T) : T :=
  let value := map value (lit 1 0) Lmax p q in
  let value := clamp value (lit 0 0) (lit 1 0) in
  let value := pow value (lit 1 0 / gamma)%S in
  value.

(** The color [c] that the loop body of [process] quantizes. *)
Definition tonemap (gamma Lmax p q exposure : T) (color : Color3 T) : Color3 T :=
  let Lw := Color3f.getLuminance color in
  let Ld := map Lw exposure Lmax p q in
  let c := Color3f.quot (Color3f.scale Ld color) Lw in
  let c := Color3f.clampedValue c in
  let c := Color3f.gammaCorrect c gamma in
  c.

End Formula.

(** The constructor, run on the base-class part of the object. *)
Definition new : M unit :=
  parameters_assign "Gamma"
    (Adjustable (F32.dec 22 1) (F32.dec 0 0) (F32.dec 10 0)
                "gamma" "Gamma correction value");;
  parameters_assign "p"
    (Adjustable (F32.dec 1 0) (F32.dec 0 0) (F32.dec 20 0)
                "p" "Exponent numerator scale factor");;
  parameters_assign "q"
    (Adjustable (F32.dec 1 0) (F32.dec 0 0) (F32.dec 20 0)
                "q" "Exponent denominator scale factor");;
  set_name "Logarithmic";;
  set_description description_text;;
  shader_init "Logarithmic" vertex_text fragment_text.

Definition setParameters (image : Image) : M unit :=
  parameters_assign "Lmax" (ReadOnly (getMaximumLuminance image) "Lmax").

(** [1.f / (size.x() * size.y())]: the product is an [int], converted to
    [float] for the division. *)
Definition delta_of (size : Vector2i.t) : float :=
  F32.div (F32.dec 1 0) (F32.of_int (int_mul (Vector2i.x size) (Vector2i.y size))).

Section Methods.
Variable lm : libm.
(** What the conversion to [uint8_t] yields where C++ leaves it undefined. *)
Variable cast_undefined : float -> Z.

Let float_ops : Scalar float := float_scalar lm.
#[local] Existing Instance float_ops.

(** [(uint8_t) x]: the value truncated toward zero when that fits a byte. *)
Definition to_uint8 (x : float) : Z :=
  match F32.trunc x with
  | Some z => if (0 <=? z) && (z <=? 255) then z else cast_undefined x
  | None => cast_undefined x
  end.

Definition process (image : Image) (dst : Z) (exposure : float) : M unit :=
  let size := getSize image in
  store_progress (lit 0 0);;
  let delta := delta_of size in
  gamma ← value <$> parameters_at "Gamma";
  Lmax ← value <$> parameters_at "Lmax";
  p ← value <$> parameters_at "p";
  q ← value <$> parameters_at "q";
  for_ (Vector2i.y size) (fun i dst =>
    for_ (Vector2i.x size) (fun j dst =>
      let color := ref image i j in
      let Lw := Color3f.getLuminance color in
      let Ld := map Lw exposure Lmax p q in
      let c := Color3f.quot (Color3f.scale Ld color) Lw in
      let c := Color3f.clampedValue c in
      let c := Color3f.gammaCorrect c gamma in
      store_dst dst 0 (to_uint8 (lit 255 0 * Color3f.r c)%S);;
      store_dst dst 1 (to_uint8 (lit 255 0 * Color3f.g c)%S);;
      store_dst dst 2 (to_uint8 (lit 255 0 * Color3f.b c)%S);;
      let dst := dst + 3 in
      v ← load_progress;
      store_progress (v + delta)%S;;
      mret dst) dst) dst;;
  mret tt.

Definition graph (value0 : float) : M float :=
  gamma ← value <$> parameters_at "Gamma";
  Lmax ← value <$> parameters_at "Lmax";
  p ← value <$> parameters_at "p";
  q ← value <$> parameters_at "q";
  let value := map value0 (lit 1 0) Lmax p q in
  let value := clamp value (lit 0 0) (lit 1 0) in
  let value := pow value (lit 1 0 / gamma)%S in
  mret value.

(** *** What a run of [process] is expected to store

    Pixel number [k] of the row-major order is [ref(k / W, k mod W)]; it
    owns the bytes [3k], [3k+1], [3k+2] behind [dst]. *)

Definition quantize (channel : float) : Z :=
  to_uint8 (lit 255 0 * channel)%S.

Definition pixel_bytes (gamma Lmax p q exposure : float) (color : Color3 float)
  : list Z :=
  let c := tonemap gamma Lmax p q exposure color in
  [quantize (Color3f.r c); quantize (Color3f.g c); quantize (Color3f.b c)].

(** The value of [*progress] after [k] additions of [delta] to [0.f]. *)
Definition progress_after (delta : float) (k : nat) : float :=
  Nat.iter k (fun v => F32.add v delta) F32.zero.

Definition nth_pixel (image : Image) (k : Z) : Color3 float :=
  let W := Vector2i.x (getSize image) in
  ref image (k / W) (k mod W).

Definition pixel_events (image : Image) (dst : Z) (exposure gamma Lmax p q : float)
  (k : Z) : list event :=
  let c := tonemap gamma Lmax p q exposure (nth_pixel image k) in
  [ Store_dst (dst + 3 * k) (quantize (Color3f.r c));
    Store_dst (dst + 3 * k + 1) (quantize (Color3f.g c));
    Store_dst (dst + 3 * k + 2) (quantize (Color3f.b c));
    Store_progress (progress_after (delta_of (getSize image)) (Z.to_nat (k + 1))) ].

Definition process_events (image : Image) (dst : Z) (exposure gamma Lmax p q : float)
  : list event :=
  let size := getSize image in
  Store_progress F32.zero
  :: flat_map (pixel_events image dst exposure gamma Lmax p q)
              (seqZ 0 (Vector2i.x size * Vector2i.y size)).

(** The bytes of all pixels, in row-major order. *)
Definition process_bytes (image : Image) (exposure gamma Lmax p q : float) : list Z :=
  let size := getSize image in
  flat_map (fun k => pixel_bytes gamma Lmax p q exposure (nth_pixel image k))
           (seqZ 0 (Vector2i.x size * Vector2i.y size)).

(** The state of a run that has finished the first [k] pixels: [d] is the
    local pointer [dst], [op] the operator and [tr0] the effects before
    the first pixel. *)
Definition after_pixels (image : Image) (dst : Z) (exposure gamma Lmax p q : float)
  (op : TonemapOperator) (tr0 : list event) (k : Z) (d : Z) (w : world) : Prop :=
  d = dst + 3 * k
  /\ this w = op
  /\ progress w = progress_after (delta_of (getSize image)) (Z.to_nat k)
  /\ trace w = tr0 ++ flat_map (pixel_events image dst exposure gamma Lmax p q)
                               (seqZ 0 k).

End Methods.
End LogarithmicOperator.

(** ** The fragment shader

    The functions of the GLSL text [fragment_text], one definition each.
    [texel] is [texture(source, uv)]; the uniforms are arguments. *)
Module FragmentShader.
Section FragmentShader.
Context {T : Type} {ops : Scalar T}.

Record vec4 := Vec4 { r : T; g : T; b : T; a : T }.

(* GLSL min, max and clamp, componentwise on vectors *)
Definition glsl_min (x y : T) : T := if (y <? x)%S then y else x.
Definition glsl_max (x y : T) : T := if (x <? y)%S then y else x.
Definition glsl_clamp (x lo hi : T) : T := glsl_min (glsl_max x lo) hi.

Definition clampedValue (color : vec4) : vec4 :=
  let color := Vec4 (r color) (g color) (b color) (lit 1 0) in
  Vec4 (glsl_clamp (r color) (lit 0 0) (lit 1 0))
       (glsl_clamp (g color) (lit 0 0) (lit 1 0))
       (glsl_clamp (b color) (lit 0 0) (lit 1 0))
       (glsl_clamp (a color) (lit 0 0) (lit 1 0)).

Definition gammaCorrect (gamma : T) (color : vec4) : vec4 :=
  Vec4 (pow (r color) (lit 1 0 / gamma)%S)
       (pow (g color) (lit 1 0 / gamma)%S)
       (pow (b color) (lit 1 0 / gamma)%S)
       (pow (a color) (lit 1 0 / gamma)%S).

Definition getLuminance (color : vec4) : T :=
  (lit 212671 6 * r color + lit 71516 5 * g color + lit 72169 6 * b color)%S.

Definition adjustColor (color : vec4) (L Ld : T) : vec4 :=
  Vec4 (Ld * r color / L)%S (Ld * g color / L)%S
       (Ld * b color / L)%S (Ld * a color / L)%S.

Definition main (exposure gamma Lmax p q : T) (texel : vec4) : vec4 :=
  let color := Vec4 (exposure * r texel)%S (exposure * g texel)%S
                    (exposure * b texel)%S (exposure * a texel)%S in
  let L := getLuminance color in
  let Ld := ((log (lit 1 0 + p * L) / log (lit 10 0))
             / (log (lit 1 0 + q * exposure * Lmax) / log (lit 10 0)))%S in
  let color := adjustColor color L Ld in
  let color := clampedValue color in
  let out_color := gammaCorrect gamma color in
  out_color.

Definition rgb (color : vec4) : Color3 T :=
  Color3f.Color (r color) (g color) (b color).

End FragmentShader.
Arguments vec4 T : clear implicits.
End FragmentShader.

(** ** Sample data

    The end-to-end scenario of the spec: a 2x1 image with the pixels
    (1,1,1) and (2,2,2), exposure 1 and the default parameters; an image
    of 8192 x 4096 pixels; and a C math library given, on the arguments
    that occur, by the correctly rounded values (NaN elsewhere). *)

Definition f32 (m : positive) (e : Z) : float := S754_finite false m e.

Definition lookup_float (table : list (float * float)) (x : float) : float :=
  match List.find (fun kv => SFeqb (fst kv) x) table with
  | Some kv => snd kv
  | None => S754_nan
  end.

Definition libm_sample : libm := {|
  log10f := lookup_float
    [ (F32.dec 1 0, F32.zero);
      (F32.dec 2 0, f32 10100891 (-25));       (* 0.30103 *)
      (F32.dec 3 0, f32 16009533 (-25));       (* 0.47712126 *)
      (F32.dec 10 0, F32.one) ];
  logf := lookup_float
    [ (F32.dec 1 0, F32.zero);
      (F32.dec 2 0, f32 11629080 (-24));       (* 0.6931472 *)
      (F32.dec 3 0, f32 9215828 (-23));        (* 1.0986123 *)
      (F32.dec 10 0, f32 9657742 (-22)) ];     (* 2.3025851 *)
  powf x y :=
    if SFeqb y (F32.div F32.one (F32.dec 22 1))
    then lookup_float
           [ (F32.zero, F32.zero);
             (F32.one, F32.one);
             (f32 10585245 (-24), f32 13608247 (-24)) ] x  (* 0.6309298 ^ (1/2.2) *)
    else S754_nan
|}.

(** A target on which an undefined conversion to [uint8_t] yields 0. *)
Definition cast_sample : float -> Z := fun _ => 0.

Definition gray (v : float) : Color3 float := Color3f.Color v v v.

Definition image_2x1 : Image := {|
  getSize := Vector2i.Vec 2 1;
  ref i j := if j =? 0 then gray (F32.dec 1 0) else gray (F32.dec 2 0);
  getMaximumLuminance := F32.dec 2 0
|}.

Definition image_8k : Image := {|
  getSize := Vector2i.Vec 8192 4096;
  ref i j := gray (F32.dec 1 0);
  getMaximumLuminance := F32.dec 1 0
|}.

Definition image_0x3 : Image := {|
  getSize := Vector2i.Vec 0 3;
  ref i j := gray (F32.dec 1 0);
  getMaximumLuminance := F32.dec 1 0
|}.

(** A freshly constructed operator, the caller's progress value being [v]. *)
Definition world_new (v : float) : world :=
  snd (LogarithmicOperator.new (World TonemapOperator_new v [])).

(** The same after [setParameters(image)]. *)
Definition world_ready (image : Image) (v : float) : world :=
  snd (LogarithmicOperator.setParameters image (world_new v)).

(** ** Reading the shader text *)

Fixpoint is_infix (needle text : string) : bool :=
  String.prefix needle text
  || match text with
     | EmptyString => false
     | String _ rest => is_infix needle rest
     end.

Definition digit_of (c : ascii) : option Z :=
  let n := Z.of_nat (nat_of_ascii c) in
  if (48 <=? n) && (n <=? 57) then Some (n - 48) else None.

(** A decimal literal [d...d.d...d] as the pair [(n, k)] of [n / 10^k];
    [frac] is [None] before the point and the number of digits after it
    otherwise. *)
Fixpoint read_decimal_from (text : string) (n : Z) (frac : option nat)
  : option (Z * nat) :=
  match text with
  | EmptyString => Some (n, default O frac)
  | String c rest =>
      if Ascii.eqb c "."%char
      then match frac with
           | None => read_decimal_from rest n (Some O)
           | Some _ => None
           end
      else match digit_of c with
           | Some d => read_decimal_from rest (10 * n + d) (S <$> frac)
           | None => None
           end
  end.

Definition read_decimal (text : string) : option (Z * nat) :=
  read_decimal_from text 0 None.

(** ** Vocabulary for further properties *)

(** The shader uniform a parameter is bound to. *)
Definition uniform (p : Param) : string :=
  match p with
  | Adjustable _ _ _ u _ => u
  | ReadOnly _ u => u
  end.

(** The first of [keys] that the mapping lacks. *)
Definition first_missing (keys : list string) (params : gmap string Param)
  : option string :=
  List.find (fun key => bool_decide (params !! key = None)) keys.

(** The keys that [process] and [graph] look up, in the order of the
    lookups. *)
Definition lookup_order : list string := ["Gamma"; "Lmax"; "p"; "q"].

(** The offsets of the stores to [dst], and the values stored to
    [*progress], in program order. *)
Definition dst_offsets (tr : list event) : list Z :=
  omap (fun e => match e with Store_dst off _ => Some off | _ => None end) tr.

Definition progress_stores (tr : list event) : list float :=
  omap (fun e => match e with Store_progress v => Some v | _ => None end) tr.

(** [setParameters] called for each image of a list in turn. *)
Definition load_images (images : list Image) (w : world) : world :=
  foldl (fun w image => snd (LogarithmicOperator.setParameters image w)) w images.

(** ** The vertex shader

    The [main] of the GLSL text [vertex_text]; the integer literals [2] and
    [1] are converted to [float]. *)

Class Minus (T : Type) := s_sub : T -> T -> T.
Infix "-" := s_sub : scalar_scope.

#[export] Instance float_minus : Minus float := SFsub F32.prec F32.emax.
#[export] Instance real_minus : Minus R := Rminus.

Module VertexShader.
Section VertexShader.
Context {T : Type} {ops : Scalar T} {minus : Minus T}.

Record vec2 := Vec2 { x : T; y : T }.

Record outputs := Outputs {
  gl_Position : FragmentShader.vec4 T;
  uv : vec2
}.

Definition main (position : vec2) : outputs :=
  {| gl_Position :=
       FragmentShader.Vec4 (x position * lit 2 0 - lit 1 0)%S
                           (y position * lit 2 0 - lit 1 0)%S
                           (lit 0 0) (lit 1 0);
     uv := Vec2 (x position) (lit 1 0 - y position)%S |}.

End VertexShader.
Arguments vec2 T : clear implicits.
Arguments outputs T : clear implicits.
End VertexShader.

(** * Properties *)

(** ** Running the effects *)

Lemma run_bind {A B} (m : M A) (f : A -> M B) (w w' : world) (a : A) :
  m w = (Ok a, w') -> (m ≫= f) w = f a w'.
Proof. intros E. unfold mbind, M_bind. now rewrite E. Qed.

Lemma run_bind_throw {A B} (m : M A) (f : A -> M B) (w w' : world) (e : exn) :
  m w = (Throw e, w') -> (m ≫= f) w = (Throw e, w').
Proof. intros E. unfold mbind, M_bind. now rewrite E. Qed.

Lemma run_parameters_at (key : string) (p : Param) (w : world) :
  parameters (this w) !! key = Some p ->
  (value <$> parameters_at key) w = (Ok (value p), w).
Proof.
  intros E. unfold fmap, M_fmap, parameters_at. now rewrite E.
Qed.

Lemma run_parameters_at_missing (key : string) (w : world) :
  parameters (this w) !! key = None ->
  (value <$> parameters_at key) w = (Throw (out_of_range key), w).
Proof.
  intros E. unfold fmap, M_fmap, parameters_at. now rewrite E.
Qed.

(** A loop whose body keeps an invariant [P], indexed by the number of
    iterations done, runs to completion and establishes [P count]. *)
Lemma for_loop_invariant {A} (P : nat -> A -> world -> Prop)
    (body : Z -> A -> M A) (count : nat) :
  forall (done : nat) (a : A) (w : world),
  (forall k a w, (done <= k < done + count)%nat -> P k a w ->
     exists a' w', body (Z.of_nat k) a w = (Ok a', w') /\ P (S k) a' w') ->
  P done a w ->
  exists a' w',
    for_loop count (Z.of_nat done) body a w = (Ok a', w')
    /\ P (done + count)%nat a' w'.
Proof.
  induction count as [|count IH]; intros done a w Hbody HP.
  - exists a, w. rewrite Nat.add_0_r. now split.
  - destruct (Hbody done a w ltac:(lia) HP) as (a1 & w1 & E1 & HP1).
    destruct (IH (S done) a1 w1) as (a2 & w2 & E2 & HP2); [|exact HP1|].
    { intros k a' w' Hk. apply Hbody. lia. }
    exists a2, w2. split.
    + cbn [for_loop]. rewrite (run_bind _ _ _ _ _ E1).
      replace (Z.of_nat done + 1) with (Z.of_nat (S done)) by lia. exact E2.
    + now replace (done + S count)%nat with (S done + count)%nat by lia.
Qed.

Lemma for_invariant {A} (P : nat -> A -> world -> Prop)
    (body : Z -> A -> M A) (n : Z) (a : A) (w : world) :
  (forall k a w, (k < Z.to_nat n)%nat -> P k a w ->
     exists a' w', body (Z.of_nat k) a w = (Ok a', w') /\ P (S k) a' w') ->
  P O a w ->
  exists a' w', for_ n body a w = (Ok a', w') /\ P (Z.to_nat n) a' w'.
Proof.
  intros Hbody HP. unfold for_.
  apply (for_loop_invariant P body (Z.to_nat n) O a w); [|exact HP].
  intros k a0 w0 Hk. apply Hbody. lia.
Qed.

(** ** binary32 additions that are exact *)

Section Binary32.

Lemma digits2_pos_size (p : positive) : digits2_pos p = Pos.size p.
Proof. induction p as [p IH|p IH|]; cbn; congruence. Qed.

Lemma digits2_pos_log2 (p : positive) :
  Zpos (digits2_pos p) = Z.log2 (Zpos p) + 1.
Proof.
  rewrite digits2_pos_size. destruct p as [p|p|]; cbn [Pos.size Z.log2]; lia.
Qed.

Lemma digits2_pos_bounds (p : positive) (d : Z) :
  2 ^ (d - 1) <= Zpos p < 2 ^ d -> Zpos (digits2_pos p) = d.
Proof.
  intros Hb. rewrite digits2_pos_log2.
  assert (0 < d).
  { destruct (Z_lt_le_dec 0 d) as [|Hd]; [assumption|].
    assert (2 ^ d <= 2 ^ 0) by (apply Z.pow_le_mono_r; lia).
    change (2 ^ 0) with 1 in *. lia. }
  rewrite (Z.log2_unique (Zpos p) (d - 1)); [lia|lia|].
  now replace (Z.succ (d - 1)) with d by lia.
Qed.

Lemma iter_xO_pow (s : nat) (n : positive) :
  Zpos (Nat.iter s xO n) = Zpos n * 2 ^ Z.of_nat s.
Proof.
  induction s as [|s IH].
  - cbn [Nat.iter nat_rect Z.of_nat]. rewrite Z.pow_0_r. lia.
  - cbn [Nat.iter nat_rect]. rewrite Pos2Z.inj_xO.
    change (nat_rect _ n (fun _ => xO) s) with (Nat.iter s xO n).
    rewrite IH, Nat2Z.inj_succ, Z.pow_succ_r; lia.
Qed.

Lemma iter_pos_nat {A} (f : A -> A) (p : positive) :
  forall x, SpecFloat.iter_pos f p x = Nat.iter (Pos.to_nat p) f x.
Proof.
  induction p as [p IH|p IH|]; intros x; cbn [SpecFloat.iter_pos].
  - rewrite !IH, Pos2Nat.inj_xI.
    replace (S (2 * Pos.to_nat p)) with (Pos.to_nat p + (Pos.to_nat p + 1))%nat by lia.
    rewrite !Nat.iter_add. reflexivity.
  - rewrite !IH, Pos2Nat.inj_xO.
    replace (2 * Pos.to_nat p)%nat with (Pos.to_nat p + Pos.to_nat p)%nat by lia.
    now rewrite Nat.iter_add.
  - reflexivity.
Qed.

(** Shifting out zeros loses nothing. *)
Lemma shr_zeros (s : nat) (n : positive) :
  Nat.iter s shr_1 (Build_shr_record (Zpos (Nat.iter s xO n)) false false)
  = Build_shr_record (Zpos n) false false.
Proof.
  induction s as [|s IH]; [reflexivity|].
  rewrite Nat.iter_succ_r. exact IH.
Qed.

Lemma shr_exact (s : nat) (n : positive) (e : Z) :
  shr (Build_shr_record (Zpos (Nat.iter s xO n)) false false) e (Z.of_nat s)
  = (Build_shr_record (Zpos n) false false, e + Z.of_nat s).
Proof.
  destruct s as [|s].
  - cbn. now rewrite Z.add_0_r.
  - unfold shr. change (Z.of_nat (S s)) with (Zpos (Pos.of_succ_nat s)).
    cbv iota. rewrite iter_pos_nat, SuccNat2Pos.id_succ, shr_zeros. reflexivity.
Qed.

(** A mantissa of 24 digits followed by [s] zeros is representable. *)
Lemma binary_round_aux_exact (n : positive) (s : nat) (e : Z) :
  Zpos (digits2_pos n) = 24 ->
  -149 <= e + Z.of_nat s <= 104 ->
  binary_round_aux F32.prec F32.emax false (Zpos (Nat.iter s xO n)) e loc_Exact
  = S754_finite false n (e + Z.of_nat s).
Proof.
  intros Hn He.
  assert (Hd : Zpos (digits2_pos (Nat.iter s xO n)) = 24 + Z.of_nat s).
  { apply digits2_pos_bounds. rewrite iter_xO_pow.
    rewrite digits2_pos_log2 in Hn.
    destruct (Z.log2_spec (Zpos n)) as [Hlo Hhi]; [lia|].
    replace (Z.log2 (Zpos n)) with 23 in * by lia.
    replace (24 + Z.of_nat s - 1) with (23 + Z.of_nat s) by lia.
    rewrite !Z.pow_add_r by lia.
    change (Z.succ 23) with 24 in Hhi. nia. }
  unfold binary_round_aux, shr_fexp, Zdigits2, fexp, emin, F32.prec, F32.emax.
  rewrite Hd. cbn [shr_record_of_loc].
  replace (Z.max (24 + Z.of_nat s + e - 24) (3 - 128 - 24) - e) with (Z.of_nat s) by lia.
  rewrite shr_exact. cbn [shr_m loc_of_shr_record round_nearest_even].
  rewrite Hn.
  replace (Z.max (24 + (e + Z.of_nat s) - 24) (3 - 128 - 24) - (e + Z.of_nat s))
    with 0 by lia.
  cbn [shr shr_m].
  replace (e + Z.of_nat s <=? 128 - 24) with true; [reflexivity|].
  symmetry. apply Z.leb_le. lia.
Qed.

Lemma shl_align_ge (m : positive) (e e' : Z) :
  e <= e' -> shl_align m e e' = (m, e).
Proof.
  intros He. unfold shl_align. destruct (e' - e) eqn:E; try reflexivity. lia.
Qed.

Lemma binary_round_exact (n : positive) (s : nat) (e : Z) :
  Zpos (digits2_pos n) = 24 ->
  -149 <= e + Z.of_nat s <= 104 ->
  binary_round F32.prec F32.emax false (Nat.iter s xO n) e
  = S754_finite false n (e + Z.of_nat s).
Proof.
  intros Hn He. unfold binary_round.
  assert (Hd : Zpos (digits2_pos (Nat.iter s xO n)) = 24 + Z.of_nat s).
  { apply digits2_pos_bounds. rewrite iter_xO_pow.
    rewrite digits2_pos_log2 in Hn.
    destruct (Z.log2_spec (Zpos n)) as [Hlo Hhi]; [lia|].
    replace (Z.log2 (Zpos n)) with 23 in * by lia.
    replace (24 + Z.of_nat s - 1) with (23 + Z.of_nat s) by lia.
    rewrite !Z.pow_add_r by lia.
    change (Z.succ 23) with 24 in Hhi. nia. }
  rewrite Hd, shl_align_ge.
  - now apply binary_round_aux_exact.
  - unfold fexp, emin, F32.prec, F32.emax. lia.
Qed.

(** Adding [2^-25] to a number of [[2^-25, 1/2)] that is a multiple of it. *)
Lemma add_delta (m : positive) (j : Z) :
  0 <= j <= 23 ->
  2 ^ 23 <= Zpos m < 2 ^ 24 ->
  Zpos m + 2 ^ (23 - j) <= 2 ^ 24 ->
  F32.add (S754_finite false m (j - 48)) (S754_finite false 8388608 (-48))
  = if Zpos m + 2 ^ (23 - j) <? 2 ^ 24
    then S754_finite false (Z.to_pos (Zpos m + 2 ^ (23 - j))) (j - 48)
    else S754_finite false 8388608 (j - 47).
Proof.
  intros Hj Hm Hsum.
  assert (Hpow : 0 < 2 ^ (23 - j)) by (apply Z.pow_pos_nonneg; lia).
  unfold F32.add, SFadd. cbv zeta.
  rewrite Z.min_r by lia.
  assert (Hx : Zpos (fst (shl_align m (j - 48) (-48))) = Zpos m * 2 ^ j).
  { unfold shl_align. replace (-48 - (j - 48)) with (- j) by lia.
    destruct j as [|pj|pj]; try lia.
    - change (- 0) with 0. cbn [fst]. rewrite Z.pow_0_r. lia.
    - change (- Z.pos pj) with (Z.neg pj). cbn [fst]. rewrite Pos2Nat.inj_iter.
      change (nat_rect _ m (fun _ => xO) (Pos.to_nat pj))
        with (Nat.iter (Pos.to_nat pj) xO m).
      now rewrite iter_xO_pow, positive_nat_Z. }
  change (fst (shl_align 8388608 (-48) (-48))) with 8388608%positive.
  cbn [cond_Zopp]. rewrite Hx.
  set (n := Z.to_pos (Zpos m + 2 ^ (23 - j))).
  assert (Hn : Zpos n = Zpos m + 2 ^ (23 - j)) by (subst n; lia).
  assert (Hsplit : 2 ^ 23 = 2 ^ (23 - j) * 2 ^ j).
  { rewrite <- Z.pow_add_r by lia. f_equal. lia. }
  destruct (Z.ltb_spec (Zpos m + 2 ^ (23 - j)) (2 ^ 24)) as [Hlt|Hge].
  - replace (Zpos m * 2 ^ j + 8388608)
      with (Zpos (Nat.iter (Z.to_nat j) xO n)).
    2:{ rewrite iter_xO_pow, Hn, Z2Nat.id by lia.
        change 8388608 with (2 ^ 23). rewrite Hsplit. ring. }
    cbn [binary_normalize]. rewrite binary_round_exact.
    + f_equal. lia.
    + apply digits2_pos_bounds. lia.
    + lia.
  - assert (Hn24 : Zpos m + 2 ^ (23 - j) = 2 ^ 24) by lia.
    replace (Zpos m * 2 ^ j + 8388608)
      with (Zpos (Nat.iter (S (Z.to_nat j)) xO 8388608%positive)).
    2:{ rewrite iter_xO_pow, Nat2Z.inj_succ, Z2Nat.id, Z.pow_succ_r by lia.
        change (2 ^ 23) with 8388608 in Hsplit.
        change (2 ^ 24) with 16777216 in Hn24.
        nia. }
    cbn [binary_normalize]. rewrite binary_round_exact.
    + f_equal. lia.
    + reflexivity.
    + lia.
Qed.

Lemma progress_after_S (delta : float) (n : nat) :
  LogarithmicOperator.progress_after delta (S n)
  = F32.add (LogarithmicOperator.progress_after delta n) delta.
Proof. reflexivity. Qed.

(** While the sum of [n] increments of [2^-25] is below [1/2] it is exact:
    it is the binary32 number [n * 2^-25]. *)
Lemma progress_exact (n : nat) :
  (1 <= n)%nat -> Z.of_nat n < 2 ^ 24 ->
  exists (j : Z) (m : positive),
    0 <= j <= 23
    /\ 2 ^ j <= Z.of_nat n < 2 ^ (j + 1)
    /\ Zpos m = Z.of_nat n * 2 ^ (23 - j)
    /\ LogarithmicOperator.progress_after (S754_finite false 8388608 (-48)) n
       = S754_finite false m (j - 48).
Proof.
  induction n as [|n IH]; [lia|]. intros _ Hlt.
  destruct n as [|n'].
  { exists 0, 8388608%positive. repeat split; cbn; lia. }
  destruct IH as (j & m & Hj & Hn & Hm & E); [lia|lia|].
  set (n := S n') in *.
  assert (Ha : 0 < 2 ^ (23 - j)) by (apply Z.pow_pos_nonneg; lia).
  assert (Hlo : 2 ^ j * 2 ^ (23 - j) = 2 ^ 23).
  { rewrite <- Z.pow_add_r by lia. f_equal. lia. }
  assert (Hhi : 2 ^ (j + 1) * 2 ^ (23 - j) = 2 ^ 24).
  { rewrite <- Z.pow_add_r by lia. f_equal. lia. }
  rewrite progress_after_S, E, add_delta; [|lia|nia|nia].
  destruct (Z.ltb_spec (Zpos m + 2 ^ (23 - j)) (2 ^ 24)) as [Hs|Hs].
  - exists j, (Z.to_pos (Zpos m + 2 ^ (23 - j))).
    split; [lia|]. split; [nia|]. split; [|reflexivity].
    rewrite Z2Pos.id by lia. rewrite Hm. lia.
  - assert (Hn1 : Z.of_nat (S n) = 2 ^ (j + 1)) by nia.
    assert (Hj1 : j + 1 <= 23).
    { destruct (Z_le_gt_dec (j + 1) 23) as [|Hgt]; [assumption|].
      assert (2 ^ 24 <= 2 ^ (j + 1)) by (apply Z.pow_le_mono_r; lia). lia. }
    exists (j + 1), 8388608%positive.
    split; [lia|]. split.
    { rewrite Hn1. split; [lia|]. apply Z.pow_lt_mono_r; lia. }
    split.
    { rewrite Hn1, <- Z.pow_add_r by lia.
      now replace (j + 1 + (23 - (j + 1))) with 23 by lia. }
    f_equal. lia.
Qed.

Lemma progress_half :
  LogarithmicOperator.progress_after (S754_finite false 8388608 (-48))
    (Z.to_nat (2 ^ 24))
  = F32.half.
Proof.
  replace (Z.to_nat (2 ^ 24)) with (S (Z.to_nat (2 ^ 24 - 1))) by lia.
  destruct (progress_exact (Z.to_nat (2 ^ 24 - 1))) as (j & m & Hj & Hn & Hm & E);
    [lia|lia|].
  rewrite Z2Nat.id in Hn, Hm by lia.
  assert (j = 23).
  { destruct (Z_le_gt_dec 23 j) as [|Hlt]; [lia|].
    assert (2 ^ (j + 1) <= 2 ^ 23) by (apply Z.pow_le_mono_r; lia). lia. }
  subst j. change (2 ^ (23 - 23)) with 1 in Hm.
  rewrite progress_after_S, E, add_delta; [|lia|lia|lia].
  change (2 ^ (23 - 23)) with 1.
  destruct (Z.ltb_spec (Zpos m + 1) (2 ^ 24)); [lia|reflexivity].
Qed.

(** From [1/2] on, adding [2^-25] is absorbed by the rounding to even. *)
Lemma progress_stalled (k : Z) :
  2 ^ 24 <= k ->
  LogarithmicOperator.progress_after (S754_finite false 8388608 (-48)) (Z.to_nat k)
  = F32.half.
Proof.
  intros Hk.
  replace k with (2 ^ 24 + Z.of_nat (Z.to_nat (k - 2 ^ 24))) by lia.
  induction (Z.to_nat (k - 2 ^ 24)) as [|i IH].
  - rewrite Z.add_0_r. apply progress_half.
  - replace (Z.to_nat (2 ^ 24 + Z.of_nat (S i)))
      with (S (Z.to_nat (2 ^ 24 + Z.of_nat i))) by lia.
    rewrite progress_after_S, IH. reflexivity.
Qed.

End Binary32.

(** ** The core formula *)

Section Map.
Import LogarithmicOperator.

Lemma lit_real_1 : (lit 1 0 : R) = 1%R.
Proof. cbn. change (10 ^ Z.of_nat 0) with 1. lra. Qed.

Lemma lit_real_0 : (lit 0 0 : R) = 0%R.
Proof. cbn. change (10 ^ Z.of_nat 0) with 1. lra. Qed.

Lemma ln_2_pos : (0 < ln 2)%R.
Proof. rewrite <- ln_1. apply ln_increasing; lra. Qed.

(** C1.  [map(Lw, exposure, Lmax, p, q)] forms [L = exposure * Lw] and
    returns the quotient [log10(1 + p*L) / log10(1 + q*exposure*Lmax)]:
    in binary32 with exactly these operations in this order, and on the
    reals the formula of the spec.  Nothing clamps the quotient: at
    [Lw = 9] and [exposure = Lmax = p = q = 1] it is
    [log10(10) / log10(2)], which on the reals exceeds 1. *)
Theorem map_formula :
  (forall (lm : libm) (Lw exposure Lmax p q : float),
     map (ops := float_scalar lm) Lw exposure Lmax p q
     = F32.div
         (log10f lm (F32.add F32.one (F32.mul p (F32.mul exposure Lw))))
         (log10f lm (F32.add F32.one (F32.mul (F32.mul q exposure) Lmax))))
  /\ (forall Lw exposure Lmax p q : R,
        map Lw exposure Lmax p q
        = (log10 (1 + p * (exposure * Lw)) / log10 (1 + q * exposure * Lmax))%R)
  /\ (forall lm : libm,
        map (ops := float_scalar lm)
          (F32.dec 9 0) (F32.dec 1 0) (F32.dec 1 0) (F32.dec 1 0) (F32.dec 1 0)
        = F32.div (log10f lm (F32.dec 10 0)) (log10f lm (F32.dec 2 0)))
  /\ (1 < map (T := R) 9 1 1 1 1)%R.
Proof.
  split; [reflexivity|]. split; [|split].
  - intros Lw exposure Lmax p q. unfold map. cbv zeta.
    change (@s_add R _) with Rplus. change (@s_mul R _) with Rmult.
    change (@s_div R _) with Rdiv. now rewrite !lit_real_1.
  - reflexivity.
  - unfold map. cbv zeta.
    change (@s_add R _) with Rplus. change (@s_mul R _) with Rmult.
    change (@s_div R _) with Rdiv. rewrite !lit_real_1. cbn [log10 real_scalar].
    replace (1 + 1 * (1 * 9))%R with 10%R by lra.
    replace (1 + 1 * 1 * 1)%R with 2%R by lra.
    assert (H2 := ln_2_pos).
    assert (H10 : (ln 2 < ln 10)%R) by (apply ln_increasing; lra).
    replace (ln 10 / ln 10)%R with 1%R by (field; lra).
    replace (1 / (ln 2 / ln 10))%R with (ln 10 / ln 2)%R by (field; lra).
    apply Rmult_lt_reg_r with (ln 2); [exact H2|].
    replace (ln 10 / ln 2 * ln 2)%R with (ln 10) by (field; lra). lra.
Qed.

(** A product that is a zero, in particular with [Lmax] a zero. *)
Lemma product_zero_of_Lmax (q exposure Lmax : float) :
  F32.is_zero Lmax = true ->
  F32.is_finite (F32.mul q exposure) = true ->
  F32.is_zero (F32.mul (F32.mul q exposure) Lmax) = true.
Proof.
  destruct Lmax; try discriminate. intros _.
  destruct (F32.mul q exposure); try discriminate; reflexivity.
Qed.

Lemma div_by_zero (x z : float) :
  F32.is_zero z = true -> F32.is_inf_or_nan (F32.div x z) = true.
Proof. destruct z; try discriminate. destruct x; reflexivity. Qed.

Lemma one_plus_zero (z : float) :
  F32.is_zero z = true -> F32.add F32.one z = F32.one.
Proof. destruct z; try discriminate. reflexivity. Qed.

(** C5.  When [q * exposure * Lmax] is a zero, in particular when [Lmax]
    is a zero and [q * exposure] is finite, the denominator of [map] is
    [log10(1)]; with a math library whose [log10(1)] is zero, [map] divides
    by that zero and returns the quotient as it is, an infinity or a NaN;
    it is a value of type [float], never an error. *)
Theorem map_divides_by_zero (lm : libm) (Lw exposure Lmax p q : float) :
  F32.is_zero (log10f lm F32.one) = true ->
  F32.is_zero (F32.mul (F32.mul q exposure) Lmax) = true
  \/ (F32.is_zero Lmax = true /\ F32.is_finite (F32.mul q exposure) = true) ->
  log10f lm (F32.add F32.one (F32.mul (F32.mul q exposure) Lmax))
    = log10f lm F32.one
  /\ map (ops := float_scalar lm) Lw exposure Lmax p q
     = F32.div (log10f lm (F32.add F32.one (F32.mul p (F32.mul exposure Lw))))
               (log10f lm F32.one)
  /\ F32.is_inf_or_nan (map (ops := float_scalar lm) Lw exposure Lmax p q) = true.
Proof.
  intros Hlog Hzero.
  assert (Hz : F32.is_zero (F32.mul (F32.mul q exposure) Lmax) = true).
  { destruct Hzero as [Hz|[HL Hfin]]; [exact Hz|].
    now apply product_zero_of_Lmax. }
  assert (E : map (ops := float_scalar lm) Lw exposure Lmax p q
              = F32.div (log10f lm (F32.add F32.one (F32.mul p (F32.mul exposure Lw))))
                        (log10f lm F32.one)).
  { unfold map. cbn. change (F32.dec 1 0) with F32.one.
    now rewrite (one_plus_zero _ Hz). }
  split; [now rewrite (one_plus_zero _ Hz)|]. split; [exact E|].
  rewrite E. now apply div_by_zero.
Qed.

Lemma map_divides_by_zero_witness :
  F32.is_zero (log10f libm_sample F32.one) = true
  /\ (F32.is_zero F32.zero = true
      /\ F32.is_finite (F32.mul (F32.dec 1 0) (F32.dec 1 0)) = true)
  /\ map (ops := float_scalar libm_sample)
       (F32.dec 9 0) (F32.dec 1 0) F32.zero (F32.dec 1 0) (F32.dec 1 0)
     = F32.infinity.
Proof.
  split; [reflexivity|]. split; [split; reflexivity|].
  destruct (map_divides_by_zero libm_sample
              (F32.dec 9 0) (F32.dec 1 0) F32.zero (F32.dec 1 0) (F32.dec 1 0)
              eq_refl (or_intror (conj eq_refl eq_refl))) as (_ & E & _).
  rewrite E. reflexivity.
Defined.

End Map.

(** ** Construction and [setParameters] *)

Section Parameters.
Import LogarithmicOperator.

Lemma run_new (base : TonemapOperator) (v : float) (tr : list event) :
  new (World base v tr)
  = (Ok tt,
     World
       {| parameters :=
            <["q" := Adjustable (F32.dec 1 0) (F32.dec 0 0) (F32.dec 20 0)
                       "q" "Exponent denominator scale factor"]>
            (<["p" := Adjustable (F32.dec 1 0) (F32.dec 0 0) (F32.dec 20 0)
                        "p" "Exponent numerator scale factor"]>
             (<["Gamma" := Adjustable (F32.dec 22 1) (F32.dec 0 0) (F32.dec 10 0)
                             "gamma" "Gamma correction value"]>
              (parameters base)));
          name := "Logarithmic";
          description := description_text;
          shader := {| shader_name := "Logarithmic";
                       vertex_source := vertex_text;
                       fragment_source := fragment_text |} |}
       v tr).
Proof. reflexivity. Qed.

Lemma new_lookup (base : TonemapOperator) (v : float) (tr : list event) :
  parameters base = ∅ ->
  let params := parameters (this (snd (new (World base v tr)))) in
  params !! "Gamma"
  = Some (Adjustable (f32 9227469 (-22)) F32.zero (f32 10485760 (-20))
            "gamma" "Gamma correction value")
  /\ params !! "p"
     = Some (Adjustable F32.one F32.zero (f32 10485760 (-19))
               "p" "Exponent numerator scale factor")
  /\ params !! "q"
     = Some (Adjustable F32.one F32.zero (f32 10485760 (-19))
               "q" "Exponent denominator scale factor")
  /\ params !! "Lmax" = None.
Proof.
  intros Hbase. rewrite run_new, Hbase. cbn [snd this parameters]. repeat split.
Qed.

Lemma dom_new (base : TonemapOperator) (v : float) (tr : list event) :
  parameters base = ∅ ->
  dom (parameters (this (snd (new (World base v tr)))))
  = ({["Gamma"; "p"; "q"]} : gset string).
Proof.
  intros Hbase. rewrite run_new, Hbase. cbn [snd this parameters].
  rewrite !dom_insert_L, dom_empty_L. set_solver.
Qed.

Lemma run_setParameters (image : Image) (w : world) :
  setParameters image w
  = (Ok tt,
     World
       {| parameters :=
            <["Lmax" := ReadOnly (getMaximumLuminance image) "Lmax"]>
              (parameters (this w));
          name := name (this w);
          description := description (this w);
          shader := shader (this w) |}
       (progress w) (trace w)).
Proof. reflexivity. Qed.

(** C9.  Construction cannot fail.  On a base object whose parameter
    mapping is empty it leaves exactly three parameters: "Gamma" with value
    2.2f and range [0, 10], "p" and "q" with value 1 and range [0, 20];
    there is no "Lmax".  The name is "Logarithmic", the description is the
    citation, and the caller's memory is untouched. *)
Theorem new_registers_parameters (base : TonemapOperator) (v : float)
    (tr : list event) :
  parameters base = ∅ ->
  let w := snd (new (World base v tr)) in
  fst (new (World base v tr)) = Ok tt
  /\ dom (parameters (this w)) = ({["Gamma"; "p"; "q"]} : gset string)
  /\ parameters (this w) !! "Gamma"
     = Some (Adjustable (f32 9227469 (-22)) F32.zero (f32 10485760 (-20))
               "gamma" "Gamma correction value")
  /\ parameters (this w) !! "p"
     = Some (Adjustable F32.one F32.zero (f32 10485760 (-19))
               "p" "Exponent numerator scale factor")
  /\ parameters (this w) !! "q"
     = Some (Adjustable F32.one F32.zero (f32 10485760 (-19))
               "q" "Exponent denominator scale factor")
  /\ parameters (this w) !! "Lmax" = None
  /\ (f32 9227469 (-22) = F32.dec 22 1
      /\ f32 10485760 (-20) = F32.dec 10 0
      /\ f32 10485760 (-19) = F32.dec 20 0)
  /\ name (this w) = "Logarithmic"
  /\ description (this w) = description_text
  /\ description_text <> EmptyString
  /\ shader (this w)
     = {| shader_name := "Logarithmic"; vertex_source := vertex_text;
          fragment_source := fragment_text |}
  /\ progress w = v
  /\ trace w = tr.
Proof.
  intros Hbase w. split; [now rewrite run_new|]. split; [now apply dom_new|].
  destruct (new_lookup base v tr Hbase) as (Hg & Hp & Hq & HL).
  split; [exact Hg|]. split; [exact Hp|]. split; [exact Hq|]. split; [exact HL|].
  subst w. rewrite run_new.
  cbn [fst snd this parameters name description progress trace].
  repeat split; try reflexivity; try discriminate.
Qed.

Lemma new_registers_parameters_witness :
  parameters TonemapOperator_new = ∅
  /\ dom (parameters (this (world_new F32.half)))
     = ({["Gamma"; "p"; "q"]} : gset string).
Proof.
  split; [reflexivity|].
  exact (proj1 (proj2 (new_registers_parameters TonemapOperator_new F32.half []
                         eq_refl))).
Defined.

(** C8.  [setParameters(image)] returns nothing and stores the image's
    maximum luminance as the read-only parameter "Lmax", replacing an
    earlier "Lmax"; every other parameter, the name, the description and
    the shader text stay as they were, and so does the caller's memory. *)
Theorem setParameters_stores_Lmax (image : Image) (w : world) :
  let w' := snd (setParameters image w) in
  fst (setParameters image w) = Ok tt
  /\ parameters (this w') !! "Lmax"
     = Some (ReadOnly (getMaximumLuminance image) "Lmax")
  /\ (forall key : string,
        key <> "Lmax" -> parameters (this w') !! key = parameters (this w) !! key)
  /\ parameters (this w') !! "Gamma" = parameters (this w) !! "Gamma"
  /\ parameters (this w') !! "p" = parameters (this w) !! "p"
  /\ parameters (this w') !! "q" = parameters (this w) !! "q"
  /\ dom (parameters (this w')) = {["Lmax"]} ∪ dom (parameters (this w))
  /\ name (this w') = name (this w)
  /\ description (this w') = description (this w)
  /\ shader (this w') = shader (this w)
  /\ progress w' = progress w
  /\ trace w' = trace w
  /\ (forall earlier : Image,
        snd (setParameters image (snd (setParameters earlier w))) = w').
Proof.
  rewrite run_setParameters.
  cbn [fst snd this parameters name description shader progress trace].
  assert (Hne : forall key : string, key <> "Lmax" ->
            <["Lmax" := ReadOnly (getMaximumLuminance image) "Lmax"]>
              (parameters (this w)) !! key = parameters (this w) !! key).
  { intros key Hkey. now apply lookup_insert_ne. }
  split; [reflexivity|]. split; [apply lookup_insert_eq|]. split; [exact Hne|].
  split; [now apply Hne|]. split; [now apply Hne|]. split; [now apply Hne|].
  split; [apply dom_insert_L|].
  repeat split.
  intros earlier. rewrite !run_setParameters.
  cbn [fst snd this parameters name description shader progress trace].
  now rewrite insert_insert_eq.
Qed.

End Parameters.

(** ** [graph] *)

Section Graph.
Import LogarithmicOperator.

Lemma run_graph (lm : libm) (value0 : float) (w : world) (gamma Lmax p q : Param) :
  parameters (this w) !! "Gamma" = Some gamma ->
  parameters (this w) !! "Lmax" = Some Lmax ->
  parameters (this w) !! "p" = Some p ->
  parameters (this w) !! "q" = Some q ->
  graph lm value0 w
  = (Ok (graph_value (ops := float_scalar lm)
           (value gamma) (value Lmax) (value p) (value q) value0), w).
Proof.
  intros Hg HL Hp Hq. unfold graph.
  rewrite (run_bind _ _ w _ _ (run_parameters_at "Gamma" gamma w Hg)).
  rewrite (run_bind _ _ w _ _ (run_parameters_at "Lmax" Lmax w HL)).
  rewrite (run_bind _ _ w _ _ (run_parameters_at "p" p w Hp)).
  rewrite (run_bind _ _ w _ _ (run_parameters_at "q" q w Hq)).
  reflexivity.
Qed.

(** C3.  With the parameters present, [graph(value)] returns
    [pow(clamp(map(value, 1, Lmax, p, q), 0, 1), 1/gamma)] and leaves the
    operator and the caller's memory as they were. *)
Theorem graph_formula (lm : libm) (value0 : float) (w : world)
    (gamma Lmax p q : Param) :
  parameters (this w) !! "Gamma" = Some gamma ->
  parameters (this w) !! "Lmax" = Some Lmax ->
  parameters (this w) !! "p" = Some p ->
  parameters (this w) !! "q" = Some q ->
  graph lm value0 w
  = (Ok (powf lm
           (clamp (ops := float_scalar lm)
              (map (ops := float_scalar lm) value0 F32.one
                 (value Lmax) (value p) (value q))
              F32.zero F32.one)
           (F32.div F32.one (value gamma))),
     w).
Proof.
  intros Hg HL Hp Hq. now rewrite (run_graph lm value0 w gamma Lmax p q).
Qed.

Lemma graph_formula_witness :
  let w := world_ready image_2x1 F32.half in
  (parameters (this w) !! "Gamma"
   = Some (Adjustable (F32.dec 22 1) F32.zero (F32.dec 10 0)
             "gamma" "Gamma correction value")
   /\ parameters (this w) !! "Lmax" = Some (ReadOnly (F32.dec 2 0) "Lmax")
   /\ parameters (this w) !! "p"
      = Some (Adjustable F32.one F32.zero (F32.dec 20 0)
                "p" "Exponent numerator scale factor")
   /\ parameters (this w) !! "q"
      = Some (Adjustable F32.one F32.zero (F32.dec 20 0)
                "q" "Exponent denominator scale factor"))
  /\ graph libm_sample (F32.dec 1 0) w = (Ok (f32 13608247 (-24)), w).
Proof.
  split; [repeat split|].
  exact (graph_formula libm_sample (F32.dec 1 0) (world_ready image_2x1 F32.half)
           _ _ _ _ eq_refl eq_refl eq_refl eq_refl).
Defined.

End Graph.

(** ** [process]: the stores of a run *)

Section Process.
Import LogarithmicOperator.
Variable lm : libm.
Variable cast_undefined : float -> Z.
Variables (image : Image) (dst : Z) (exposure : float).
Variables (gamma Lmax p q : Param).

Lemma seqZ_snoc (k : Z) : 0 <= k -> seqZ 0 (k + 1) = seqZ 0 k ++ [k].
Proof.
  intros Hk. replace (k + 1) with (Z.of_nat (S (Z.to_nat k))) by lia.
  rewrite seqZ_S. now replace (Z.of_nat (Z.to_nat k)) with k by lia.
Qed.

Lemma progress_after_succ (delta : float) (k : Z) :
  0 <= k ->
  F32.add (progress_after delta (Z.to_nat k)) delta
  = progress_after delta (Z.to_nat (k + 1)).
Proof.
  intros Hk. replace (Z.to_nat (k + 1)) with (S (Z.to_nat k)) by lia.
  reflexivity.
Qed.

Lemma nth_pixel_row_col (i j : Z) :
  0 <= j < Vector2i.x (getSize image) ->
  nth_pixel image (i * Vector2i.x (getSize image) + j) = ref image i j.
Proof.
  intros Hj. unfold nth_pixel. cbv zeta.
  set (W := Vector2i.x (getSize image)) in *.
  assert (Hdiv : (i * W + j) / W = i).
  { rewrite Z.div_add_l, Z.div_small; lia. }
  assert (Hmod : (i * W + j) mod W = j).
  { rewrite Z.add_comm, Z_mod_plus_full. apply Z.mod_small. lia. }
  now rewrite Hdiv, Hmod.
Qed.

Lemma world_eta (w : world) op v tr :
  this w = op -> progress w = v -> trace w = tr -> w = World op v tr.
Proof. destruct w; simpl; congruence. Qed.

(** With the four parameters present, [process] runs to completion; it
    leaves the operator as it was, and its stores are [process_events]. *)
Lemma process_run (w : world) :
  parameters (this w) !! "Gamma" = Some gamma ->
  parameters (this w) !! "Lmax" = Some Lmax ->
  parameters (this w) !! "p" = Some p ->
  parameters (this w) !! "q" = Some q ->
  0 <= Vector2i.x (getSize image) ->
  0 <= Vector2i.y (getSize image) ->
  process lm cast_undefined image dst exposure w
  = (Ok tt,
     World (this w)
       (progress_after (delta_of (getSize image))
          (Z.to_nat (Vector2i.x (getSize image) * Vector2i.y (getSize image))))
       (trace w ++ process_events lm cast_undefined image dst exposure
                     (value gamma) (value Lmax) (value p) (value q))).
Proof.
  intros Hg HL Hp Hq HW HH.
  set (W := Vector2i.x (getSize image)) in *.
  set (H := Vector2i.y (getSize image)) in *.
  unfold process. fold W H.
  rewrite (run_bind (store_progress _) _ w _ tt eq_refl).
  set (w1 := World (this w) _ _).
  rewrite (run_bind _ _ w1 _ _ (run_parameters_at "Gamma" gamma w1 Hg)).
  rewrite (run_bind _ _ w1 _ _ (run_parameters_at "Lmax" Lmax w1 HL)).
  rewrite (run_bind _ _ w1 _ _ (run_parameters_at "p" p w1 Hp)).
  rewrite (run_bind _ _ w1 _ _ (run_parameters_at "q" q w1 Hq)).
  set (P := after_pixels lm cast_undefined image dst exposure
              (value gamma) (value Lmax) (value p) (value q) (this w) (trace w1)).
  match goal with |- (for_ H ?body dst ≫= _) w1 = _ => set (outer := body) end.
  destruct (for_invariant (fun i => P (Z.of_nat i * W)) outer H dst w1)
    as (d & w2 & E & HP).
  - (* one row *)
    intros i d w' Hi HPi. subst outer. cbv beta.
    match goal with |- context [for_ W ?body d w'] => set (inner := body) end.
    destruct (for_invariant (fun j => P (Z.of_nat i * W + Z.of_nat j)) inner W d w')
      as (d' & w'' & E & HP).
    + (* one pixel *)
      intros j d0 w0 Hj (Hd & Hthis & Hprog & Htr).
      eexists _, _. split; [reflexivity|].
      assert (Hk : 0 <= Z.of_nat i * W + Z.of_nat j) by nia.
      replace (Z.of_nat i * W + Z.of_nat (S j))
        with (Z.of_nat i * W + Z.of_nat j + 1) by lia.
      repeat split; cbn [this progress trace].
      * lia.
      * exact Hthis.
      * rewrite Hprog. apply progress_after_succ, Hk.
      * rewrite Htr, seqZ_snoc, flat_map_app by exact Hk.
        cbn [flat_map]. rewrite app_nil_r. rewrite <- !app_assoc. f_equal.

        unfold pixel_events, quantize, tonemap. cbv zeta.
        rewrite nth_pixel_row_col by (fold W; lia).
        rewrite Hprog, progress_after_succ, Hd, Z.add_0_r by exact Hk.
        reflexivity.
    + now rewrite Z.add_0_r.
    + exists d', w''. split; [exact E|].
      replace (Z.of_nat (S i) * W) with (Z.of_nat i * W + Z.of_nat (Z.to_nat W)) by lia.
      exact HP.
  - subst P. unfold after_pixels. change (Z.of_nat 0 * W) with 0.
    repeat split; [lia|]. cbn [seqZ flat_map]. now rewrite app_nil_r.
  - rewrite (run_bind _ _ _ _ _ E).
    destruct HP as (_ & Hthis & Hprog & Htr).
    unfold mret, M_ret. f_equal.
    replace (Z.of_nat (Z.to_nat H) * W) with (W * H) in * by lia.
    apply world_eta; [exact Hthis|exact Hprog|].
    rewrite Htr. subst w1. cbn [trace]. rewrite <- app_assoc. reflexivity.
Qed.

(** Without pixels, [process] only resets the progress value. *)
Lemma process_run_empty (w : world) :
  parameters (this w) !! "Gamma" = Some gamma ->
  parameters (this w) !! "Lmax" = Some Lmax ->
  parameters (this w) !! "p" = Some p ->
  parameters (this w) !! "q" = Some q ->
  Vector2i.x (getSize image) <= 0 \/ Vector2i.y (getSize image) <= 0 ->
  process lm cast_undefined image dst exposure w
  = (Ok tt, World (this w) F32.zero (trace w ++ [Store_progress F32.zero])).
Proof.
  intros Hg HL Hp Hq Hsize.
  unfold process.
  rewrite (run_bind (store_progress _) _ w _ tt eq_refl).
  set (w1 := World (this w) _ _).
  rewrite (run_bind _ _ w1 _ _ (run_parameters_at "Gamma" gamma w1 Hg)).
  rewrite (run_bind _ _ w1 _ _ (run_parameters_at "Lmax" Lmax w1 HL)).
  rewrite (run_bind _ _ w1 _ _ (run_parameters_at "p" p w1 Hp)).
  rewrite (run_bind _ _ w1 _ _ (run_parameters_at "q" q w1 Hq)).
  match goal with |- (for_ _ ?body dst ≫= _) w1 = _ => set (outer := body) end.
  destruct (for_invariant (fun _ d w' => d = dst /\ w' = w1) outer
              (Vector2i.y (getSize image)) dst w1) as (d & w2 & E & -> & ->).
  - intros i d w' Hi [-> ->]. subst outer. cbv beta.
    assert (Hx : Z.to_nat (Vector2i.x (getSize image)) = O) by lia.
    unfold for_ at 1. rewrite Hx. now exists dst, w1.
  - now split.
  - now rewrite (run_bind _ _ _ _ _ E).
Qed.

End Process.

(** ** [process]: the bytes left in the buffer *)

Section Buffer.
Import LogarithmicOperator.
Variable lm : libm.
Variable cast_undefined : float -> Z.
Variables (image : Image) (dst : Z) (exposure gamma Lmax p q : float).

Lemma replay_app (tr1 tr2 : list event) (buf : list Z) :
  replay (tr1 ++ tr2) buf = replay tr2 (replay tr1 buf).
Proof. apply foldl_app. Qed.

Lemma drop_three (l : list Z) (o : nat) :
  (o + 3 <= length l)%nat ->
  exists x0 x1 x2, drop o l = x0 :: x1 :: x2 :: drop (o + 3) l.
Proof.
  intros Hlen.
  destruct (lookup_lt_is_Some_2 l o) as [x0 E0]; [lia|].
  destruct (lookup_lt_is_Some_2 l (S o)) as [x1 E1]; [lia|].
  destruct (lookup_lt_is_Some_2 l (S (S o))) as [x2 E2]; [lia|].
  exists x0, x1, x2.
  rewrite (drop_S l x0 o E0), (drop_S l x1 (S o) E1), (drop_S l x2 (S (S o)) E2).
  now replace (o + 3)%nat with (S (S (S o))) by lia.
Qed.

(** One pixel overwrites the three bytes at its offset. *)
Lemma replay_pixel (L R : list Z) (x0 x1 x2 b0 b1 b2 : Z) (o : Z) (v : float) :
  Z.of_nat (length L) = o ->
  replay [Store_dst o b0; Store_dst (o + 1) b1; Store_dst (o + 2) b2;
          Store_progress v] (L ++ x0 :: x1 :: x2 :: R)
  = L ++ b0 :: b1 :: b2 :: R.
Proof.
  intros Ho. unfold replay. cbn [foldl replay_event].
  replace (0 <=? o) with true by (symmetry; apply Z.leb_le; lia).
  replace (0 <=? o + 1) with true by (symmetry; apply Z.leb_le; lia).
  replace (0 <=? o + 2) with true by (symmetry; apply Z.leb_le; lia).
  replace (Z.to_nat o) with (length L + 0)%nat by lia.
  replace (Z.to_nat (o + 1)) with (length L + 1)%nat by lia.
  replace (Z.to_nat (o + 2)) with (length L + 2)%nat by lia.
  rewrite insert_app_r. cbn [insert list_insert].
  rewrite insert_app_r. cbn [insert list_insert].
  rewrite insert_app_r. reflexivity.
Qed.

Lemma pixel_bytes_flat_length (f : Z -> Color3 float) (n : nat) :
  length (flat_map (fun k => pixel_bytes lm cast_undefined gamma Lmax p q exposure (f k))
            (seqZ 0 (Z.of_nat n)))
  = (3 * n)%nat.
Proof.
  induction n as [|n IH]; [reflexivity|].
  rewrite seqZ_S, flat_map_app, length_app, IH. cbn. lia.
Qed.

Lemma replay_pixels (buf : list Z) (n : nat) :
  0 <= dst ->
  dst + 3 * Z.of_nat n <= Z.of_nat (length buf) ->
  replay (flat_map (pixel_events lm cast_undefined image dst exposure gamma Lmax p q)
            (seqZ 0 (Z.of_nat n))) buf
  = take (Z.to_nat dst) buf
    ++ flat_map (fun k => pixel_bytes lm cast_undefined gamma Lmax p q exposure
                            (nth_pixel image k))
         (seqZ 0 (Z.of_nat n))
    ++ drop (Z.to_nat (dst + 3 * Z.of_nat n)) buf.
Proof.
  intros Hdst. induction n as [|n IH]; intros Hlen.
  - change (Z.of_nat 0) with 0. rewrite Z.mul_0_r, Z.add_0_r.
    change (seqZ 0 0) with (@nil Z). cbn [flat_map app]. unfold replay.
    cbn [foldl]. now rewrite take_drop.
  - rewrite seqZ_S, !flat_map_app, replay_app, IH by lia.
    cbn [flat_map]. rewrite !app_nil_r, Z.add_0_l.
    destruct (drop_three buf (Z.to_nat (dst + 3 * Z.of_nat n)))
      as (x0 & x1 & x2 & E); [lia|].
    rewrite E.
    replace (Z.to_nat (dst + 3 * Z.of_nat (S n)))
      with (Z.to_nat (dst + 3 * Z.of_nat n) + 3)%nat by lia.
    rewrite !app_assoc.
    set (L := take _ buf ++ flat_map _ _).
    assert (HL : Z.of_nat (length L) = dst + 3 * Z.of_nat n).
    { subst L. rewrite length_app, length_take, pixel_bytes_flat_length. lia. }
    unfold pixel_events, pixel_bytes. cbv zeta.
    rewrite replay_pixel by exact HL.
    rewrite <- !app_assoc. reflexivity.
Qed.

End Buffer.

(** ** [process]: the claims *)

Section ProcessClaims.
Import LogarithmicOperator.

Lemma replay_process_events (lm : libm) (cast_undefined : float -> Z)
    (image : Image) (dst : Z) (exposure gamma Lmax p q : float) (buf : list Z) :
  0 <= Vector2i.x (getSize image) ->
  0 <= Vector2i.y (getSize image) ->
  0 <= dst ->
  dst + 3 * (Vector2i.x (getSize image) * Vector2i.y (getSize image))
    <= Z.of_nat (length buf) ->
  replay (process_events lm cast_undefined image dst exposure gamma Lmax p q) buf
  = take (Z.to_nat dst) buf
    ++ process_bytes lm cast_undefined image exposure gamma Lmax p q
    ++ drop (Z.to_nat (dst + 3 * (Vector2i.x (getSize image)
                                  * Vector2i.y (getSize image)))) buf.
Proof.
  intros HW HH Hdst Hlen. unfold process_events, process_bytes. cbv zeta.
  set (n := Vector2i.x (getSize image) * Vector2i.y (getSize image)) in *.
  assert (Hn : 0 <= n) by (subst n; nia).
  replace n with (Z.of_nat (Z.to_nat n)) in * by lia.
  change (replay (?e :: ?tr) buf) with (replay tr buf).
  now apply replay_pixels.
Qed.

Lemma quantize_sample :
  quantize libm_sample cast_sample (F32.dec 811 3) = 206
  /\ F32.nearest (F32.mul (F32.dec 255 0) (F32.dec 811 3)) = Some 207.
Proof. split; reflexivity. Qed.

(** C2.  With the parameters present, [process] on a W x H image runs to
    completion and, after resetting the progress value, handles the pixels
    in row-major order: pixel number [k] is [ref(k / W, k mod W)], and its
    stores are the three bytes at [dst + 3k], [dst + 3k + 1], [dst + 3k + 2]
    followed by one store to the progress value.  The bytes are those of
    the color [Ld * color / Lw], clamped, gamma-corrected and multiplied by
    255, converted by truncation toward zero (255 * 0.811 becomes 206, not
    207).  The buffer ends up holding these bytes and is otherwise
    unchanged. *)
Theorem process_stores_pixels (lm : libm) (cast_undefined : float -> Z)
    (image : Image) (dst : Z) (exposure : float) (w : world)
    (gamma Lmax p q : Param) :
  parameters (this w) !! "Gamma" = Some gamma ->
  parameters (this w) !! "Lmax" = Some Lmax ->
  parameters (this w) !! "p" = Some p ->
  parameters (this w) !! "q" = Some q ->
  0 <= Vector2i.x (getSize image) ->
  0 <= Vector2i.y (getSize image) ->
  let W := Vector2i.x (getSize image) in
  let H := Vector2i.y (getSize image) in
  let events :=
    process_events lm cast_undefined image dst exposure
      (value gamma) (value Lmax) (value p) (value q) in
  let bytes :=
    process_bytes lm cast_undefined image exposure
      (value gamma) (value Lmax) (value p) (value q) in
  fst (process lm cast_undefined image dst exposure w) = Ok tt
  /\ trace (snd (process lm cast_undefined image dst exposure w))
     = trace w ++ events
  /\ events
     = Store_progress F32.zero
       :: flat_map
            (fun k =>
               let color := ref image (k / W) (k mod W) in
               let Lw := Color3f.getLuminance (ops := float_scalar lm) color in
               let Ld := map (ops := float_scalar lm) Lw exposure
                           (value Lmax) (value p) (value q) in
               let c :=
                 Color3f.gammaCorrect (ops := float_scalar lm)
                   (Color3f.clampedValue (ops := float_scalar lm)
                      (Color3f.quot (ops := float_scalar lm)
                         (Color3f.scale (ops := float_scalar lm) Ld color) Lw))
                   (value gamma) in
               [ Store_dst (dst + 3 * k)
                   (to_uint8 cast_undefined (F32.mul (F32.dec 255 0) (Color3f.r c)));
                 Store_dst (dst + 3 * k + 1)
                   (to_uint8 cast_undefined (F32.mul (F32.dec 255 0) (Color3f.g c)));
                 Store_dst (dst + 3 * k + 2)
                   (to_uint8 cast_undefined (F32.mul (F32.dec 255 0) (Color3f.b c)));
                 Store_progress
                   (progress_after (delta_of (getSize image)) (Z.to_nat (k + 1))) ])
            (seqZ 0 (W * H))
  /\ (forall (x : float) (z : Z),
        F32.trunc x = Some z -> 0 <= z <= 255 -> to_uint8 cast_undefined x = z)
  /\ (quantize libm_sample cast_sample (F32.dec 811 3) = 206
      /\ F32.nearest (F32.mul (F32.dec 255 0) (F32.dec 811 3)) = Some 207)
  /\ (forall buf : list Z,
        0 <= dst ->
        dst + 3 * (W * H) <= Z.of_nat (length buf) ->
        replay events buf
        = take (Z.to_nat dst) buf ++ bytes ++ drop (Z.to_nat (dst + 3 * (W * H))) buf)
  /\ Z.of_nat (length bytes) = 3 * (W * H).
Proof.
  intros Hg HL Hp Hq HW HH W H events bytes.
  rewrite (process_run lm cast_undefined image dst exposure gamma Lmax p q w
             Hg HL Hp Hq HW HH).
  cbn [fst snd trace].
  split; [reflexivity|]. split; [reflexivity|]. split; [reflexivity|].
  split.
  { intros x z Hx Hz. unfold to_uint8. rewrite Hx.
    replace (0 <=? z) with true by (symmetry; apply Z.leb_le; lia).
    replace (z <=? 255) with true by (symmetry; apply Z.leb_le; lia).
    reflexivity. }
  split; [exact quantize_sample|]. split.
  - intros buf Hdst Hlen. subst events bytes.
    now apply replay_process_events.
  - subst bytes. unfold process_bytes. cbv zeta. fold W H.
    assert (Hn : 0 <= W * H) by nia.
    replace (W * H) with (Z.of_nat (Z.to_nat (W * H))) by lia.
    rewrite pixel_bytes_flat_length. lia.
Qed.

Lemma process_stores_pixels_witness :
  let w := world_ready image_2x1 F32.half in
  parameters (this w) !! "Lmax" = Some (ReadOnly (F32.dec 2 0) "Lmax")
  /\ trace (snd (process libm_sample cast_sample image_2x1 0 (F32.dec 1 0) w))
     = [ Store_progress F32.zero;
         Store_dst 0 206; Store_dst 1 206; Store_dst 2 206;
         Store_progress F32.half;
         Store_dst 3 255; Store_dst 4 255; Store_dst 5 255;
         Store_progress F32.one ].
Proof.
  split; [reflexivity|].
  destruct (process_stores_pixels libm_sample cast_sample image_2x1 0 (F32.dec 1 0)
              (world_ready image_2x1 F32.half) _ _ _ _
              eq_refl eq_refl eq_refl eq_refl ltac:(cbn; lia) ltac:(cbn; lia))
    as (_ & Htrace & _).
  rewrite Htrace. reflexivity.
Defined.

(** C10.  On an image without pixels (W * H = 0) and with the parameters
    present, [process] stores 0 to the progress value and nothing else: no
    byte is written and the progress value is 0 on return.  The increment
    [1.f / (W * H)] is +infinity. *)
Theorem process_without_pixels (lm : libm) (cast_undefined : float -> Z)
    (image : Image) (dst : Z) (exposure : float) (w : world)
    (gamma Lmax p q : Param) :
  parameters (this w) !! "Gamma" = Some gamma ->
  parameters (this w) !! "Lmax" = Some Lmax ->
  parameters (this w) !! "p" = Some p ->
  parameters (this w) !! "q" = Some q ->
  Vector2i.x (getSize image) * Vector2i.y (getSize image) = 0 ->
  process lm cast_undefined image dst exposure w
  = (Ok tt, World (this w) F32.zero (trace w ++ [Store_progress F32.zero]))
  /\ delta_of (getSize image) = F32.infinity.
Proof.
  intros Hg HL Hp Hq Hsize. split.
  - apply (process_run_empty lm cast_undefined image dst exposure gamma Lmax p q);
      try assumption.
    destruct (proj1 (Z.eq_mul_0 _ _) Hsize) as [E|E]; rewrite E; lia.
  - unfold delta_of, int_mul. now rewrite Hsize.
Qed.

Lemma process_without_pixels_witness :
  let w := world_ready image_0x3 F32.half in
  Vector2i.x (getSize image_0x3) * Vector2i.y (getSize image_0x3) = 0
  /\ process libm_sample cast_sample image_0x3 0 (F32.dec 1 0) w
     = (Ok tt, World (this w) F32.zero [Store_progress F32.zero])
  /\ delta_of (getSize image_0x3) = F32.infinity.
Proof.
  split; [reflexivity|].
  exact (process_without_pixels libm_sample cast_sample image_0x3 0 (F32.dec 1 0)
           (world_ready image_0x3 F32.half) _ _ _ _
           eq_refl eq_refl eq_refl eq_refl eq_refl).
Defined.

End ProcessClaims.

(** ** A fresh operator has no "Lmax" *)

Section Fresh.
Import LogarithmicOperator.

Lemma process_total (lm : libm) (cast_undefined : float -> Z)
    (image : Image) (dst : Z) (exposure : float) (w : world)
    (gamma Lmax p q : Param) :
  parameters (this w) !! "Gamma" = Some gamma ->
  parameters (this w) !! "Lmax" = Some Lmax ->
  parameters (this w) !! "p" = Some p ->
  parameters (this w) !! "q" = Some q ->
  fst (process lm cast_undefined image dst exposure w) = Ok tt.
Proof.
  intros Hg HL Hp Hq.
  destruct (Z_le_gt_dec (Vector2i.x (getSize image)) 0) as [HW|HW];
    [|destruct (Z_le_gt_dec (Vector2i.y (getSize image)) 0) as [HH|HH]].
  - rewrite (process_run_empty lm cast_undefined image dst exposure gamma Lmax p q);
      auto.
  - rewrite (process_run_empty lm cast_undefined image dst exposure gamma Lmax p q);
      auto.
  - rewrite (process_run lm cast_undefined image dst exposure gamma Lmax p q);
      auto; lia.
Qed.

Lemma process_missing_Lmax (lm : libm) (cast_undefined : float -> Z)
    (image : Image) (dst : Z) (exposure : float) (w : world) (gamma : Param) :
  parameters (this w) !! "Gamma" = Some gamma ->
  parameters (this w) !! "Lmax" = None ->
  process lm cast_undefined image dst exposure w
  = (Throw (out_of_range "Lmax"),
     World (this w) F32.zero (trace w ++ [Store_progress F32.zero])).
Proof.
  intros Hg HL. unfold process.
  rewrite (run_bind (store_progress _) _ w _ tt eq_refl).
  set (w1 := World (this w) _ _).
  rewrite (run_bind _ _ w1 _ _ (run_parameters_at "Gamma" gamma w1 Hg)).
  now rewrite (run_bind_throw _ _ w1 _ _ (run_parameters_at_missing "Lmax" w1 HL)).
Qed.

Lemma graph_missing_Lmax (lm : libm) (value0 : float) (w : world) (gamma : Param) :
  parameters (this w) !! "Gamma" = Some gamma ->
  parameters (this w) !! "Lmax" = None ->
  graph lm value0 w = (Throw (out_of_range "Lmax"), w).
Proof.
  intros Hg HL. unfold graph.
  rewrite (run_bind _ _ w _ _ (run_parameters_at "Gamma" gamma w Hg)).
  now rewrite (run_bind_throw _ _ w _ _ (run_parameters_at_missing "Lmax" w HL)).
Qed.

(** The claim C4 as stated fails: when the lookup of "Lmax" throws,
    [process] has already overwritten the caller's progress value. *)
Lemma fresh_process_resets_progress :
  let w := world_new F32.half in
  let r := process libm_sample cast_sample image_2x1 0 (F32.dec 1 0) w in
  fst r = Throw (out_of_range "Lmax")
  /\ progress w = F32.half
  /\ progress (snd r) = F32.zero
  /\ trace (snd r) = [Store_progress F32.zero]
  /\ r <> (Throw (out_of_range "Lmax"), w).
Proof.
  repeat split; try reflexivity.
  intros E. apply (f_equal (fun r => progress (snd r))) in E. discriminate E.
Qed.

(** C4, amended.  A fresh operator (constructed on a base object with an
    empty parameter mapping) has "Gamma", "p" and "q" but no "Lmax".  On
    it [graph] throws the missing-key failure for "Lmax" and does nothing
    else; [process] throws the same failure after it has reset the caller's
    progress value to 0, and before it writes any byte.  After one
    [setParameters] with any image the lookup of "Lmax" succeeds and
    neither method throws. *)
Theorem fresh_operator_misses_Lmax (lm : libm) (cast_undefined : float -> Z)
    (base : TonemapOperator) (image : Image) (dst : Z)
    (exposure value0 v : float) (tr : list event) :
  parameters base = ∅ ->
  let w := snd (new (World base v tr)) in
  dom (parameters (this w)) = ({["Gamma"; "p"; "q"]} : gset string)
  /\ process lm cast_undefined image dst exposure w
     = (Throw (out_of_range "Lmax"),
        World (this w) F32.zero (tr ++ [Store_progress F32.zero]))
  /\ graph lm value0 w = (Throw (out_of_range "Lmax"), w)
  /\ (forall loaded : Image,
        let w' := snd (setParameters loaded w) in
        parameters_at "Lmax" w'
        = (Ok (ReadOnly (getMaximumLuminance loaded) "Lmax"), w')
        /\ fst (process lm cast_undefined image dst exposure w') = Ok tt
        /\ fst (graph lm value0 w')
           = Ok (graph_value (ops := float_scalar lm) (F32.dec 22 1)
                   (getMaximumLuminance loaded) (F32.dec 1 0) (F32.dec 1 0) value0)).
Proof.
  intros Hbase w. split; [now apply dom_new|].
  destruct (new_lookup base v tr Hbase) as (Hg & Hp & Hq & HL).
  fold w in Hg, Hp, Hq, HL.
  assert (Htr : trace w = tr) by (subst w; now rewrite run_new).
  split.
  { rewrite (process_missing_Lmax lm cast_undefined image dst exposure w _ Hg HL).
    now rewrite Htr. }
  split.
  { exact (graph_missing_Lmax lm value0 w _ Hg HL). }
  intros loaded w'.
  assert (Hne : forall key : string, key <> "Lmax" ->
            parameters (this w') !! key = parameters (this w) !! key).
  { intros key Hkey. subst w'. rewrite run_setParameters. cbn [snd this parameters].
    now apply lookup_insert_ne. }
  assert (HL' : parameters (this w') !! "Lmax"
                = Some (ReadOnly (getMaximumLuminance loaded) "Lmax")).
  { subst w'. rewrite run_setParameters. cbn [snd this parameters].
    apply lookup_insert_eq. }
  rewrite <- (Hne "Gamma") in Hg by discriminate.
  rewrite <- (Hne "p") in Hp by discriminate.
  rewrite <- (Hne "q") in Hq by discriminate.
  split.
  { unfold parameters_at. now rewrite HL'. }
  split.
  - exact (process_total lm cast_undefined image dst exposure w' _ _ _ _ Hg HL' Hp Hq).
  - now rewrite (run_graph lm value0 w' _ _ _ _ Hg HL' Hp Hq).
Qed.

Lemma fresh_operator_misses_Lmax_witness :
  parameters TonemapOperator_new = ∅
  /\ graph libm_sample (F32.dec 9 0) (world_new F32.half)
     = (Throw (out_of_range "Lmax"), world_new F32.half).
Proof.
  split; [reflexivity|].
  exact (proj1 (proj2 (proj2
           (fresh_operator_misses_Lmax libm_sample cast_sample TonemapOperator_new
              image_2x1 0 (F32.dec 1 0) (F32.dec 9 0) F32.half [] eq_refl)))).
Defined.

End Fresh.

(** ** The progress value on a large image *)

Section Progress.
Import LogarithmicOperator.

Lemma delta_8k : delta_of (Vector2i.Vec 8192 4096) = f32 8388608 (-48).
Proof. reflexivity. Qed.

(** C7 fails on an image of 8192 x 4096 pixels: the increment is [2^-25];
    the progress value reaches [1/2] after [2^24] pixels and every later
    addition leaves it there, so it is not strictly increasing and ends at
    [1/2], not near 1. *)
Theorem progress_stalls_at_half (lm : libm) (cast_undefined : float -> Z)
    (image : Image) (dst : Z) (exposure : float) (w : world)
    (gamma Lmax p q : Param) :
  parameters (this w) !! "Gamma" = Some gamma ->
  parameters (this w) !! "Lmax" = Some Lmax ->
  parameters (this w) !! "p" = Some p ->
  parameters (this w) !! "q" = Some q ->
  getSize image = Vector2i.Vec 8192 4096 ->
  process lm cast_undefined image dst exposure w
  = (Ok tt,
     World (this w) F32.half
       (trace w ++ process_events lm cast_undefined image dst exposure
                     (value gamma) (value Lmax) (value p) (value q)))
  /\ (forall k : Z,
        2 ^ 24 <= k ->
        progress_after (delta_of (getSize image)) (Z.to_nat k) = F32.half).
Proof.
  intros Hg HL Hp Hq Hsize.
  assert (Hstall : forall k : Z, 2 ^ 24 <= k ->
            progress_after (delta_of (getSize image)) (Z.to_nat k) = F32.half).
  { intros k Hk. rewrite Hsize, delta_8k. now apply progress_stalled. }
  split; [|exact Hstall].
  rewrite (process_run lm cast_undefined image dst exposure gamma Lmax p q w
             Hg HL Hp Hq).
  - rewrite Hstall; [reflexivity|]. rewrite Hsize. cbn [Vector2i.x Vector2i.y]. lia.
  - rewrite Hsize. cbn [Vector2i.x]. lia.
  - rewrite Hsize. cbn [Vector2i.y]. lia.
Qed.

Lemma progress_stalls_at_half_witness :
  let w := world_ready image_8k F32.zero in
  getSize image_8k = Vector2i.Vec 8192 4096
  /\ progress (snd (process libm_sample cast_sample image_8k 0 (F32.dec 1 0) w))
     = F32.half.
Proof.
  split; [reflexivity|].
  destruct (progress_stalls_at_half libm_sample cast_sample image_8k 0 (F32.dec 1 0)
              (world_ready image_8k F32.zero) _ _ _ _
              eq_refl eq_refl eq_refl eq_refl eq_refl) as [E _].
  rewrite E. reflexivity.
Defined.

End Progress.

(** ** The shader and the CPU path *)

Section Shader.
Import LogarithmicOperator.

Lemma real_ops :
  @s_add R _ = Rplus /\ @s_mul R _ = Rmult /\ @s_div R _ = Rdiv.
Proof. repeat split. Qed.

Lemma glsl_clamp_real (x : R) :
  FragmentShader.glsl_clamp x (lit 0 0) (lit 1 0) = clamp x (lit 0 0) (lit 1 0).
Proof.
  unfold FragmentShader.glsl_clamp, FragmentShader.glsl_min,
    FragmentShader.glsl_max, clamp.
  rewrite lit_real_0, lit_real_1. cbn [s_ltb real_scalar].
  destruct (Rlt_dec x 0) as [H0|H0].
  - destruct (Rlt_dec 1 0); [lra|]. reflexivity.
  - reflexivity.
Qed.

(** Scaling the color by [Ld / L] undoes the exposure applied to it. *)
Lemma adjust_exposed (Ld exposure Lw c : R) :
  exposure <> 0%R ->
  (Ld * (exposure * c) / (exposure * Lw) = Ld * c / Lw)%R.
Proof.
  intros He. unfold Rdiv. rewrite Rinv_mult.
  replace (Ld * (exposure * c) * (/ exposure * / Lw))%R
    with (Ld * c * / Lw * (exposure * / exposure))%R by ring.
  rewrite Rinv_r by exact He. ring.
Qed.

Lemma main_real (exposure gamma Lmax p q : R) (texel : FragmentShader.vec4 R) :
  FragmentShader.rgb (FragmentShader.main exposure gamma Lmax p q texel)
  = tonemap gamma Lmax p q exposure (FragmentShader.rgb texel).
Proof.
  destruct texel as [r g b a].
  unfold FragmentShader.main, tonemap, FragmentShader.rgb. cbv zeta.
  unfold FragmentShader.clampedValue, FragmentShader.gammaCorrect,
    FragmentShader.adjustColor, FragmentShader.getLuminance,
    Color3f.gammaCorrect, Color3f.clampedValue, Color3f.quot, Color3f.scale,
    Color3f.getLuminance, map.
  cbn [FragmentShader.r FragmentShader.g FragmentShader.b FragmentShader.a
       Color3f.r Color3f.g Color3f.b].
  rewrite !glsl_clamp_real.
  destruct real_ops as (-> & -> & ->). cbn [log10 log real_scalar].
  set (wr := lit 212671 6). set (wg := lit 71516 5). set (wb := lit 72169 6).
  set (Lw := (wr * r + wg * g + wb * b)%R).
  replace (wr * (exposure * r) + wg * (exposure * g) + wb * (exposure * b))%R
    with (exposure * Lw)%R by (subst Lw; ring).
  set (Ld := (ln (lit 1 0 + p * (exposure * Lw)) / ln (lit 10 0)
              / (ln (lit 1 0 + q * exposure * Lmax) / ln (lit 10 0)))%R).
  replace (ln 10) with (ln (lit 10 0)).
  2:{ f_equal. cbn. change (10 ^ Z.of_nat 0) with 1. lra. }
  fold Ld.
  destruct (Req_dec_T exposure 0) as [He|He].
  - (* no exposure: both quotients are 0 / 0 *)
    assert (HLd : Ld = 0%R).
    { subst Ld. rewrite He, lit_real_1.
      replace (1 + p * (0 * Lw))%R with 1%R by ring.
      rewrite ln_1. unfold Rdiv. ring. }
    rewrite HLd, He. unfold Rdiv.
    now rewrite !Rmult_0_l.
  - now rewrite !adjust_exposed by exact He.
Qed.

(** The color that [process] quantizes for a pixel is [tonemap] of it, the
    formula evaluated in binary32. *)
Lemma process_applies_tonemap (lm : libm) (cast_undefined : float -> Z)
    (image : Image) (dst : Z) (exposure : float) (w : world)
    (gamma Lmax p q : Param) :
  parameters (this w) !! "Gamma" = Some gamma ->
  parameters (this w) !! "Lmax" = Some Lmax ->
  parameters (this w) !! "p" = Some p ->
  parameters (this w) !! "q" = Some q ->
  0 <= Vector2i.x (getSize image) ->
  0 <= Vector2i.y (getSize image) ->
  process lm cast_undefined image dst exposure w
  = (Ok tt,
     World (this w)
       (progress_after (delta_of (getSize image))
          (Z.to_nat (Vector2i.x (getSize image) * Vector2i.y (getSize image))))
       (trace w
        ++ Store_progress F32.zero
           :: flat_map
                (fun k =>
                   let c :=
                     tonemap (ops := float_scalar lm) (value gamma) (value Lmax)
                       (value p) (value q) exposure
                       (ref image (k / Vector2i.x (getSize image))
                                  (k mod Vector2i.x (getSize image))) in
                   [ Store_dst (dst + 3 * k)
                       (to_uint8 cast_undefined
                          (F32.mul (F32.dec 255 0) (Color3f.r c)));
                     Store_dst (dst + 3 * k + 1)
                       (to_uint8 cast_undefined
                          (F32.mul (F32.dec 255 0) (Color3f.g c)));
                     Store_dst (dst + 3 * k + 2)
                       (to_uint8 cast_undefined
                          (F32.mul (F32.dec 255 0) (Color3f.b c)));
                     Store_progress
                       (progress_after (delta_of (getSize image))
                          (Z.to_nat (k + 1))) ])
                (seqZ 0 (Vector2i.x (getSize image)
                         * Vector2i.y (getSize image))))).
Proof.
  intros Hg HL Hp Hq HW HH.
  rewrite (process_run lm cast_undefined image dst exposure gamma Lmax p q w
             Hg HL Hp Hq HW HH).
  reflexivity.
Qed.

Lemma shader_alpha (exposure gamma Lmax p q : R) (texel : FragmentShader.vec4 R) :
  FragmentShader.a (FragmentShader.main exposure gamma Lmax p q texel)
  = Rpow 1 (1 / gamma).
Proof.
  destruct texel as [r g b a].
  unfold FragmentShader.main, FragmentShader.clampedValue,
    FragmentShader.gammaCorrect. cbv zeta.
  cbn [FragmentShader.a]. rewrite glsl_clamp_real.
  unfold clamp. rewrite lit_real_0, lit_real_1. cbn [s_ltb real_scalar].
  destruct (Rlt_dec 1 0); [lra|]. destruct (Rlt_dec 1 1); [lra|].
  reflexivity.
Qed.

(** C6.  The fragment shader and the CPU path compute the same function of
    a pixel.  A run of [process] stores, for each pixel, the bytes of
    [tonemap] of that pixel evaluated in binary32; the text of the shader
    holds the luminance weights 0.212671, 0.71516 and 0.072169, the
    decimals of the CPU path, so both luminances are the same binary32
    number on every color, and each weight is the luminance of the
    corresponding unit color on either side; and read on the reals, the
    red, green and blue of the shader's [main] are [tonemap] of the texel,
    the very function that [process] quantizes, while the shader's alpha is
    1 raised to [1/gamma]. *)
Theorem shader_matches_process (lm : libm) (cast_undefined : float -> Z)
    (image : Image) (dst : Z) (exposure : float) (w : world)
    (gamma Lmax p q : Param) :
  parameters (this w) !! "Gamma" = Some gamma ->
  parameters (this w) !! "Lmax" = Some Lmax ->
  parameters (this w) !! "p" = Some p ->
  parameters (this w) !! "q" = Some q ->
  0 <= Vector2i.x (getSize image) ->
  0 <= Vector2i.y (getSize image) ->
  let W := Vector2i.x (getSize image) in
  let H := Vector2i.y (getSize image) in
  (fst (process lm cast_undefined image dst exposure w) = Ok tt
   /\ trace (snd (process lm cast_undefined image dst exposure w))
      = trace w
        ++ Store_progress F32.zero
           :: flat_map
                (fun k =>
                   let c :=
                     tonemap (ops := float_scalar lm) (value gamma) (value Lmax)
                       (value p) (value q) exposure
                       (ref image (k / W) (k mod W)) in
                   [ Store_dst (dst + 3 * k)
                       (to_uint8 cast_undefined
                          (F32.mul (F32.dec 255 0) (Color3f.r c)));
                     Store_dst (dst + 3 * k + 1)
                       (to_uint8 cast_undefined
                          (F32.mul (F32.dec 255 0) (Color3f.g c)));
                     Store_dst (dst + 3 * k + 2)
                       (to_uint8 cast_undefined
                          (F32.mul (F32.dec 255 0) (Color3f.b c)));
                     Store_progress
                       (progress_after (delta_of (getSize image))
                          (Z.to_nat (k + 1))) ])
                (seqZ 0 (W * H)))
  /\ is_infix "return 0.212671 * color.r + 0.71516 * color.g + 0.072169 * color.b;"
       fragment_text = true
  /\ (read_decimal "0.212671" = Some (212671, 6%nat)
      /\ read_decimal "0.71516" = Some (71516, 5%nat)
      /\ read_decimal "0.072169" = Some (72169, 6%nat))
  /\ (F32.dec 212671 6 = f32 14272109 (-26)
      /\ F32.dec 71516 5 = f32 11998394 (-24)
      /\ F32.dec 72169 6 = f32 9686359 (-27))
  /\ (forall alpha : float,
        FragmentShader.getLuminance (ops := float_scalar lm)
          (FragmentShader.Vec4 F32.one F32.zero F32.zero alpha)
        = f32 14272109 (-26)
        /\ FragmentShader.getLuminance (ops := float_scalar lm)
             (FragmentShader.Vec4 F32.zero F32.one F32.zero alpha)
           = f32 11998394 (-24)
        /\ FragmentShader.getLuminance (ops := float_scalar lm)
             (FragmentShader.Vec4 F32.zero F32.zero F32.one alpha)
           = f32 9686359 (-27))
  /\ (Color3f.getLuminance (ops := float_scalar lm)
        (Color3f.Color F32.one F32.zero F32.zero) = f32 14272109 (-26)
      /\ Color3f.getLuminance (ops := float_scalar lm)
           (Color3f.Color F32.zero F32.one F32.zero) = f32 11998394 (-24)
      /\ Color3f.getLuminance (ops := float_scalar lm)
           (Color3f.Color F32.zero F32.zero F32.one) = f32 9686359 (-27))
  /\ (forall color : FragmentShader.vec4 float,
        FragmentShader.getLuminance (ops := float_scalar lm) color
        = Color3f.getLuminance (ops := float_scalar lm) (FragmentShader.rgb color))
  /\ (forall (exposure gamma Lmax p q : R) (texel : FragmentShader.vec4 R),
        FragmentShader.rgb (FragmentShader.main exposure gamma Lmax p q texel)
        = tonemap gamma Lmax p q exposure (FragmentShader.rgb texel))
  /\ (forall (exposure gamma Lmax p q : R) (texel : FragmentShader.vec4 R),
        FragmentShader.a (FragmentShader.main exposure gamma Lmax p q texel)
        = Rpow 1 (1 / gamma)).
Proof.
  intros Hg HL Hp Hq HW HH W H.
  split.
  { rewrite (process_applies_tonemap lm cast_undefined image dst exposure w
               gamma Lmax p q Hg HL Hp Hq HW HH).
    split; reflexivity. }
  split; [vm_compute; reflexivity|].
  split; [repeat split|]. split; [repeat split|].
  split; [intros alpha; repeat split|]. split; [repeat split|].
  split; [reflexivity|]. split; [exact main_real|exact shader_alpha].
Qed.

Lemma shader_matches_process_witness :
  let w := world_ready image_2x1 F32.half in
  parameters (this w) !! "Lmax" = Some (ReadOnly (F32.dec 2 0) "Lmax")
  /\ trace (snd (process libm_sample cast_sample image_2x1 0 (F32.dec 1 0) w))
     = [ Store_progress F32.zero;
         Store_dst 0 206; Store_dst 1 206; Store_dst 2 206;
         Store_progress F32.half;
         Store_dst 3 255; Store_dst 4 255; Store_dst 5 255;
         Store_progress F32.one ].
Proof.
  split; [reflexivity|].
  destruct (shader_matches_process libm_sample cast_sample image_2x1 0 (F32.dec 1 0)
              (world_ready image_2x1 F32.half) _ _ _ _
              eq_refl eq_refl eq_refl eq_refl ltac:(cbn; lia) ltac:(cbn; lia))
    as ((_ & Htrace) & _).
  rewrite Htrace. reflexivity.
Defined.

End Shader.

(** * Further properties *)

(** ** Missing parameters *)

Section MissingKeys.
Import LogarithmicOperator.

Lemma first_missing_cases (params : gmap string Param) :
  match first_missing lookup_order params with
  | None =>
      exists gamma Lmax p q,
        params !! "Gamma" = Some gamma /\ params !! "Lmax" = Some Lmax
        /\ params !! "p" = Some p /\ params !! "q" = Some q
  | Some key =>
      params !! key = None
      /\ ((key = "Gamma")
          \/ (key = "Lmax" /\ is_Some (params !! "Gamma"))
          \/ (key = "p" /\ is_Some (params !! "Gamma")
              /\ is_Some (params !! "Lmax"))
          \/ (key = "q" /\ is_Some (params !! "Gamma")
              /\ is_Some (params !! "Lmax") /\ is_Some (params !! "p")))
  end.
Proof.
  unfold first_missing, lookup_order. cbn [List.find].
  destruct (params !! "Gamma") as [gamma|] eqn:Hg.
  2:{ rewrite bool_decide_eq_true_2 by reflexivity. auto. }
  rewrite bool_decide_eq_false_2 by discriminate.
  destruct (params !! "Lmax") as [Lmax|] eqn:HL.
  2:{ rewrite bool_decide_eq_true_2 by reflexivity. eauto 6. }
  rewrite bool_decide_eq_false_2 by discriminate.
  destruct (params !! "p") as [p|] eqn:Hp.
  2:{ rewrite bool_decide_eq_true_2 by reflexivity. eauto 8. }
  rewrite bool_decide_eq_false_2 by discriminate.
  destruct (params !! "q") as [q|] eqn:Hq.
  2:{ rewrite bool_decide_eq_true_2 by reflexivity. eauto 10. }
  rewrite bool_decide_eq_false_2 by discriminate.
  eauto 10.
Qed.

Lemma run_process_throw (lm : libm) (cast_undefined : float -> Z)
    (image : Image) (dst : Z) (exposure : float) (w : world) (key : string) :
  first_missing lookup_order (parameters (this w)) = Some key ->
  process lm cast_undefined image dst exposure w
  = (Throw (out_of_range key),
     World (this w) F32.zero (trace w ++ [Store_progress F32.zero])).
Proof.
  intros Hkey. pose proof (first_missing_cases (parameters (this w))) as Hc.
  rewrite Hkey in Hc. destruct Hc as [Hnone Hc].
  unfold process.
  rewrite (run_bind (store_progress _) _ w _ tt eq_refl).
  set (w1 := World (this w) _ _).
  destruct Hc as [->|[(-> & [g Hg])|[(-> & [g Hg] & [L HL])
                 |(-> & [g Hg] & [L HL] & [p Hp])]]].
  - now rewrite (run_bind_throw _ _ w1 _ _ (run_parameters_at_missing "Gamma" w1 Hnone)).
  - rewrite (run_bind _ _ w1 _ _ (run_parameters_at "Gamma" g w1 Hg)).
    now rewrite (run_bind_throw _ _ w1 _ _ (run_parameters_at_missing "Lmax" w1 Hnone)).
  - rewrite (run_bind _ _ w1 _ _ (run_parameters_at "Gamma" g w1 Hg)).
    rewrite (run_bind _ _ w1 _ _ (run_parameters_at "Lmax" L w1 HL)).
    now rewrite (run_bind_throw _ _ w1 _ _ (run_parameters_at_missing "p" w1 Hnone)).
  - rewrite (run_bind _ _ w1 _ _ (run_parameters_at "Gamma" g w1 Hg)).
    rewrite (run_bind _ _ w1 _ _ (run_parameters_at "Lmax" L w1 HL)).
    rewrite (run_bind _ _ w1 _ _ (run_parameters_at "p" p w1 Hp)).
    now rewrite (run_bind_throw _ _ w1 _ _ (run_parameters_at_missing "q" w1 Hnone)).
Qed.

Lemma run_graph_throw (lm : libm) (value0 : float) (w : world) (key : string) :
  first_missing lookup_order (parameters (this w)) = Some key ->
  graph lm value0 w = (Throw (out_of_range key), w).
Proof.
  intros Hkey. pose proof (first_missing_cases (parameters (this w))) as Hc.
  rewrite Hkey in Hc. destruct Hc as [Hnone Hc].
  unfold graph.
  destruct Hc as [->|[(-> & [g Hg])|[(-> & [g Hg] & [L HL])
                 |(-> & [g Hg] & [L HL] & [p Hp])]]].
  - now rewrite (run_bind_throw _ _ w _ _ (run_parameters_at_missing "Gamma" w Hnone)).
  - rewrite (run_bind _ _ w _ _ (run_parameters_at "Gamma" g w Hg)).
    now rewrite (run_bind_throw _ _ w _ _ (run_parameters_at_missing "Lmax" w Hnone)).
  - rewrite (run_bind _ _ w _ _ (run_parameters_at "Gamma" g w Hg)).
    rewrite (run_bind _ _ w _ _ (run_parameters_at "Lmax" L w HL)).
    now rewrite (run_bind_throw _ _ w _ _ (run_parameters_at_missing "p" w Hnone)).
  - rewrite (run_bind _ _ w _ _ (run_parameters_at "Gamma" g w Hg)).
    rewrite (run_bind _ _ w _ _ (run_parameters_at "Lmax" L w HL)).
    rewrite (run_bind _ _ w _ _ (run_parameters_at "p" p w Hp)).
    now rewrite (run_bind_throw _ _ w _ _ (run_parameters_at_missing "q" w Hnone)).
Qed.

(** X1.  [process] returns normally exactly when "Gamma", "Lmax", "p" and
    "q" are all present.  Otherwise it throws [out_of_range] for the first
    missing key in that order, and all it has done by then is to reset the
    progress value: no byte is written.  In no case does it change the
    operator. *)
Theorem process_outcome (lm : libm) (cast_undefined : float -> Z)
    (image : Image) (dst : Z) (exposure : float) (w : world) :
  let r := process lm cast_undefined image dst exposure w in
  fst r = match first_missing lookup_order (parameters (this w)) with
          | None => Ok tt
          | Some key => Throw (out_of_range key)
          end
  /\ (fst r = Ok tt <->
      forall key, key ∈ lookup_order -> is_Some (parameters (this w) !! key))
  /\ (fst r <> Ok tt ->
      snd r = World (this w) F32.zero (trace w ++ [Store_progress F32.zero]))
  /\ this (snd r) = this w.
Proof.
  intros r. subst r.
  pose proof (first_missing_cases (parameters (this w))) as Hc.
  destruct (first_missing lookup_order (parameters (this w))) as [key|] eqn:Hkey.
  - rewrite (run_process_throw lm cast_undefined image dst exposure w key Hkey).
    cbn [fst snd this]. split; [reflexivity|]. split; [|now split].
    split; [discriminate|]. intros Hall. exfalso.
    destruct Hc as [Hnone Hc].
    assert (Hin : key ∈ lookup_order).
    { unfold lookup_order.
      destruct Hc as [->|[[-> _]|[[-> _]|[-> _]]]]; set_solver. }
    destruct (Hall key Hin) as [x Hx]. congruence.
  - destruct Hc as (g & L & p & q & Hg & HL & Hp & Hq).
    assert (Hok := process_total lm cast_undefined image dst exposure w g L p q
                     Hg HL Hp Hq).
    split; [exact Hok|]. split; [|split].
    + split; [|intros _; exact Hok]. intros _ key Hin.
      unfold lookup_order in Hin.
      apply elem_of_cons in Hin as [->|Hin]; [eauto|].
      apply elem_of_cons in Hin as [->|Hin]; [eauto|].
      apply elem_of_cons in Hin as [->|Hin]; [eauto|].
      apply elem_of_cons in Hin as [->|Hin]; [eauto|].
      now apply elem_of_nil in Hin.
    + intros Hne. now elim Hne.
    + destruct (Z_le_gt_dec (Vector2i.x (getSize image)) 0) as [HW|HW];
        [|destruct (Z_le_gt_dec (Vector2i.y (getSize image)) 0) as [HH|HH]].
      * rewrite (process_run_empty lm cast_undefined image dst exposure g L p q);
          auto.
      * rewrite (process_run_empty lm cast_undefined image dst exposure g L p q);
          auto.
      * rewrite (process_run lm cast_undefined image dst exposure g L p q);
          auto; lia.
Qed.

(** X2.  [graph] never changes anything: whether it returns or throws, the
    operator, the progress value and the stores are as before.  It returns
    exactly when the four parameters are present and otherwise throws
    [out_of_range] for the first missing key in the order "Gamma", "Lmax",
    "p", "q". *)
Theorem graph_outcome (lm : libm) (value0 : float) (w : world) :
  snd (graph lm value0 w) = w
  /\ match first_missing lookup_order (parameters (this w)) with
     | None => exists y, fst (graph lm value0 w) = Ok y
     | Some key => fst (graph lm value0 w) = Throw (out_of_range key)
     end
  /\ ((exists y, fst (graph lm value0 w) = Ok y) <->
      forall key, key ∈ lookup_order -> is_Some (parameters (this w) !! key)).
Proof.
  pose proof (first_missing_cases (parameters (this w))) as Hc.
  destruct (first_missing lookup_order (parameters (this w))) as [key|] eqn:Hkey.
  - rewrite (run_graph_throw lm value0 w key Hkey). cbn [fst snd].
    split; [reflexivity|]. split; [reflexivity|].
    split; [intros [y Hy]; discriminate|]. intros Hall. exfalso.
    destruct Hc as [Hnone Hc].
    assert (Hin : key ∈ lookup_order).
    { unfold lookup_order.
      destruct Hc as [->|[[-> _]|[[-> _]|[-> _]]]]; set_solver. }
    destruct (Hall key Hin) as [x Hx]. congruence.
  - destruct Hc as (g & L & p & q & Hg & HL & Hp & Hq).
    rewrite (run_graph lm value0 w g L p q Hg HL Hp Hq). cbn [fst snd].
    split; [reflexivity|]. split; [eauto|].
    split; [|eauto]. intros _ key Hin.
    unfold lookup_order in Hin.
    apply elem_of_cons in Hin as [->|Hin]; [eauto|].
    apply elem_of_cons in Hin as [->|Hin]; [eauto|].
    apply elem_of_cons in Hin as [->|Hin]; [eauto|].
    apply elem_of_cons in Hin as [->|Hin]; [eauto|].
    now apply elem_of_nil in Hin.
Qed.

End MissingKeys.

(** ** The stores of [process], by kind *)

Section Stores.
Import LogarithmicOperator.
Variable lm : libm.
Variable cast_undefined : float -> Z.
Variables (image : Image) (dst : Z) (exposure gamma Lmax p q : float).

Lemma dst_offsets_app (tr1 tr2 : list event) :
  dst_offsets (tr1 ++ tr2) = dst_offsets tr1 ++ dst_offsets tr2.
Proof. apply omap_app. Qed.

Lemma progress_stores_app (tr1 tr2 : list event) :
  progress_stores (tr1 ++ tr2) = progress_stores tr1 ++ progress_stores tr2.
Proof. apply omap_app. Qed.

Lemma dst_offsets_progress (v : float) (tr : list event) :
  dst_offsets (Store_progress v :: tr) = dst_offsets tr.
Proof. reflexivity. Qed.

Lemma progress_stores_progress (v : float) (tr : list event) :
  progress_stores (Store_progress v :: tr) = v :: progress_stores tr.
Proof. reflexivity. Qed.

Lemma dst_offsets_pixels (n : nat) :
  dst_offsets
    (flat_map (pixel_events lm cast_undefined image dst exposure gamma Lmax p q)
       (seqZ 0 (Z.of_nat n)))
  = seqZ dst (3 * Z.of_nat n).
Proof.
  induction n as [|n IH].
  - reflexivity.
  - rewrite seqZ_S, flat_map_app, dst_offsets_app, IH.
    replace (3 * Z.of_nat (S n)) with (3 * Z.of_nat n + 3) by lia.
    rewrite seqZ_app by lia. f_equal.
    cbn [flat_map app pixel_events dst_offsets omap list_omap].
    unfold seqZ. change (Z.to_nat 3) with 3%nat.
    cbn [seq fmap list_fmap]. rewrite Z.add_0_l.
    repeat (f_equal; try lia).
Qed.

Lemma progress_stores_pixels (n : nat) :
  progress_stores
    (flat_map (pixel_events lm cast_undefined image dst exposure gamma Lmax p q)
       (seqZ 0 (Z.of_nat n)))
  = progress_after (delta_of (getSize image)) <$> seq 1 n.
Proof.
  induction n as [|n IH].
  - reflexivity.
  - rewrite seqZ_S, flat_map_app, progress_stores_app, IH, seq_S, fmap_app.
    f_equal. cbn [flat_map app pixel_events progress_stores omap list_omap fmap list_fmap].
    rewrite Z.add_0_l. do 2 f_equal. lia.
Qed.

End Stores.

Section StoresClaim.
Import LogarithmicOperator.

(** X3.  With the parameters present, a run of [process] on a W x H image
    stores to [dst] exactly at the offsets [dst], [dst + 1], ...,
    [dst + 3*W*H - 1], in this order and each once: nothing is written
    before [dst] or from [dst + 3*W*H] on.  It stores to the progress value
    [W*H + 1] times: the [0.f] of the reset and after it the sums of 1, 2,
    ..., [W*H] increments. *)
Theorem process_store_offsets (lm : libm) (cast_undefined : float -> Z)
    (image : Image) (dst : Z) (exposure : float) (w : world)
    (gamma Lmax p q : Param) :
  parameters (this w) !! "Gamma" = Some gamma ->
  parameters (this w) !! "Lmax" = Some Lmax ->
  parameters (this w) !! "p" = Some p ->
  parameters (this w) !! "q" = Some q ->
  0 <= Vector2i.x (getSize image) ->
  0 <= Vector2i.y (getSize image) ->
  let n := Vector2i.x (getSize image) * Vector2i.y (getSize image) in
  let tr := trace (snd (process lm cast_undefined image dst exposure w)) in
  dst_offsets tr = dst_offsets (trace w) ++ seqZ dst (3 * n)
  /\ (forall off : Z, off ∈ seqZ dst (3 * n) <-> dst <= off < dst + 3 * n)
  /\ NoDup (seqZ dst (3 * n))
  /\ progress_stores tr
     = progress_stores (trace w)
       ++ (progress_after (delta_of (getSize image)) <$> seq 0 (S (Z.to_nat n))).
Proof.
  intros Hg HL Hp Hq HW HH n tr. subst tr.
  rewrite (process_run lm cast_undefined image dst exposure gamma Lmax p q w
             Hg HL Hp Hq HW HH).
  cbn [snd trace]. unfold process_events. cbv zeta. fold n.
  assert (Hn : 0 <= n) by (subst n; nia).
  replace (seqZ 0 n) with (seqZ 0 (Z.of_nat (Z.to_nat n)))
    by (now rewrite Z2Nat.id by lia).
  split; [|split; [|split]].
  - rewrite dst_offsets_app, dst_offsets_progress, dst_offsets_pixels.
    now rewrite Z2Nat.id by lia.
  - intros off. rewrite elem_of_seqZ. lia.
  - apply NoDup_seqZ.
  - rewrite progress_stores_app, progress_stores_progress, progress_stores_pixels.
    reflexivity.
Qed.

Lemma process_store_offsets_witness :
  let w := world_ready image_2x1 F32.half in
  (0 <= Vector2i.x (getSize image_2x1) /\ 0 <= Vector2i.y (getSize image_2x1))
  /\ dst_offsets (trace (snd (process libm_sample cast_sample image_2x1 10
                                (F32.dec 1 0) w)))
     = [10; 11; 12; 13; 14; 15]
  /\ progress_stores (trace (snd (process libm_sample cast_sample image_2x1 10
                                    (F32.dec 1 0) w)))
     = [F32.zero; F32.half; F32.one].
Proof.
  split; [cbn; lia|].
  destruct (process_store_offsets libm_sample cast_sample image_2x1 10 (F32.dec 1 0)
              (world_ready image_2x1 F32.half) _ _ _ _
              eq_refl eq_refl eq_refl eq_refl ltac:(cbn; lia) ltac:(cbn; lia))
    as (Hoff & _ & _ & Hprog).
  split; [rewrite Hoff|rewrite Hprog]; reflexivity.
Defined.

End StoresClaim.

(** ** Loading images *)

Section Loading.
Import LogarithmicOperator.

Lemma load_images_snoc (images : list Image) (loaded : Image) (w : world) :
  load_images (images ++ [loaded]) w
  = World
      {| parameters :=
           <["Lmax" := ReadOnly (getMaximumLuminance loaded) "Lmax"]>
             (parameters (this w));
         name := name (this w);
         description := description (this w);
         shader := shader (this w) |}
      (progress w) (trace w).
Proof.
  revert w. induction images as [|first images IH]; intros w.
  - reflexivity.
  - change (load_images ((first :: images) ++ [loaded]) w)
      with (load_images (images ++ [loaded]) (snd (setParameters first w))).
    rewrite IH, run_setParameters. cbn [snd this parameters name description
                                         shader progress trace].
    now rewrite insert_insert_eq.
Qed.

(** X4.  [process] and [graph] work with the "Lmax" of the image that
    [setParameters] was last called with, whatever image [process] itself
    is given: after construction and any sequence of [setParameters] calls
    ending with [loaded], a run of [process] on [image] stores the events
    computed with gamma = 2.2f, p = q = 1 and Lmax =
    [loaded->getMaximumLuminance()], and [graph] evaluates the curve with
    the same values. *)
Theorem process_uses_loaded_Lmax (lm : libm) (cast_undefined : float -> Z)
    (base : TonemapOperator) (v : float) (tr : list event)
    (images : list Image) (loaded image : Image)
    (dst : Z) (exposure value0 : float) :
  parameters base = ∅ ->
  0 <= Vector2i.x (getSize image) ->
  0 <= Vector2i.y (getSize image) ->
  let w := load_images (images ++ [loaded]) (snd (new (World base v tr))) in
  parameters (this w) !! "Lmax"
    = Some (ReadOnly (getMaximumLuminance loaded) "Lmax")
  /\ fst (process lm cast_undefined image dst exposure w) = Ok tt
  /\ trace (snd (process lm cast_undefined image dst exposure w))
     = tr ++ process_events lm cast_undefined image dst exposure
               (F32.dec 22 1) (getMaximumLuminance loaded)
               (F32.dec 1 0) (F32.dec 1 0)
  /\ graph lm value0 w
     = (Ok (graph_value (ops := float_scalar lm) (F32.dec 22 1)
              (getMaximumLuminance loaded) (F32.dec 1 0) (F32.dec 1 0) value0),
        w).
Proof.
  intros Hbase HW HH w.
  destruct (new_lookup base v tr Hbase) as (Hg & Hp & Hq & _).
  assert (Hw : w = World
                     {| parameters :=
                          <["Lmax" := ReadOnly (getMaximumLuminance loaded) "Lmax"]>
                            (parameters (this (snd (new (World base v tr)))));
                        name := name (this (snd (new (World base v tr))));
                        description := description (this (snd (new (World base v tr))));
                        shader := shader (this (snd (new (World base v tr)))) |}
                     v tr).
  { subst w. rewrite load_images_snoc. now rewrite run_new. }
  assert (HL' : parameters (this w) !! "Lmax"
                = Some (ReadOnly (getMaximumLuminance loaded) "Lmax")).
  { rewrite Hw. cbn [this parameters]. apply lookup_insert_eq. }
  assert (Hne : forall key : string, key <> "Lmax" ->
            parameters (this w) !! key
            = parameters (this (snd (new (World base v tr)))) !! key).
  { intros key Hkey. rewrite Hw. cbn [this parameters].
    now apply lookup_insert_ne. }
  rewrite <- (Hne "Gamma") in Hg by discriminate.
  rewrite <- (Hne "p") in Hp by discriminate.
  rewrite <- (Hne "q") in Hq by discriminate.
  assert (Htr : trace w = tr) by now rewrite Hw.
  split; [exact HL'|].
  rewrite (process_run lm cast_undefined image dst exposure _ _ _ _ w
             Hg HL' Hp Hq HW HH).
  cbn [fst snd trace]. split; [reflexivity|]. split; [now rewrite Htr|].
  now rewrite (run_graph lm value0 w _ _ _ _ Hg HL' Hp Hq).
Qed.

Lemma process_uses_loaded_Lmax_witness :
  let w := load_images [image_8k; image_2x1] (world_new F32.half) in
  parameters TonemapOperator_new = ∅
  /\ graph libm_sample (F32.dec 1 0) w = (Ok (f32 13608247 (-24)), w).
Proof.
  split; [reflexivity|].
  exact (proj2 (proj2 (proj2
           (process_uses_loaded_Lmax libm_sample cast_sample TonemapOperator_new
              F32.half [] [image_8k] image_2x1 image_0x3 0 (F32.dec 1 0) (F32.dec 1 0)
              eq_refl ltac:(cbn; lia) ltac:(cbn; lia))))).
Defined.

(** X5.  Every parameter of an operator, after construction and any
    sequence of [setParameters] calls, names a uniform that the fragment
    shader of that operator declares as [uniform float]: the renderer can
    bind each parameter by its uniform name. *)
Theorem parameters_are_shader_uniforms (base : TonemapOperator) (v : float)
    (tr : list event) (images : list Image) (key : string) (p : Param) :
  parameters base = ∅ ->
  let w := load_images images (snd (new (World base v tr))) in
  parameters (this w) !! key = Some p ->
  key ∈ ["Gamma"; "p"; "q"; "Lmax"]
  /\ is_infix ("uniform float " +:+ uniform p +:+ ";")
       (fragment_source (shader (this w))) = true.
Proof.
  intros Hbase w Hkey.
  destruct (new_lookup base v tr Hbase) as (Hg & Hp & Hq & HL).
  assert (Hd := dom_new base v tr Hbase).
  assert (Hsh : fragment_source (shader (this w)) = fragment_text).
  { subst w. induction images as [|loaded front _] using rev_ind.
    - now rewrite run_new.
    - rewrite load_images_snoc. now rewrite run_new. }
  rewrite Hsh.
  assert (Hcases : (key = "Lmax" /\ exists x, p = ReadOnly x "Lmax")
                   \/ parameters (this (snd (new (World base v tr)))) !! key = Some p).
  { subst w. induction images as [|loaded front _] using rev_ind.
    - now right.
    - rewrite load_images_snoc in Hkey. cbn [this parameters] in Hkey.
      apply lookup_insert_Some in Hkey as [[<- <-]|[_ Hkey]]; eauto. }
  destruct Hcases as [[-> [x ->]]|Hnew].
  { split; [repeat constructor|]. vm_compute. reflexivity. }
  assert (Hin : key ∈ ({["Gamma"; "p"; "q"]} : gset string)).
  { rewrite <- Hd. apply elem_of_dom. eauto. }
  apply elem_of_union in Hin as [Hin|Hin];
    [apply elem_of_union in Hin as [Hin|Hin]|];
    apply elem_of_singleton in Hin; subst key.
  - rewrite Hg in Hnew. injection Hnew as <-.
    split; [repeat constructor|]. vm_compute. reflexivity.
  - rewrite Hp in Hnew. injection Hnew as <-.
    split; [repeat constructor|]. vm_compute. reflexivity.
  - rewrite Hq in Hnew. injection Hnew as <-.
    split; [repeat constructor|]. vm_compute. reflexivity.
Qed.

Lemma parameters_are_shader_uniforms_witness :
  let w := load_images [image_2x1] (world_new F32.half) in
  parameters TonemapOperator_new = ∅
  /\ parameters (this w) !! "Gamma"
     = Some (Adjustable (F32.dec 22 1) F32.zero (F32.dec 10 0)
               "gamma" "Gamma correction value")
  /\ is_infix "uniform float gamma;" (fragment_source (shader (this w))) = true.
Proof.
  split; [reflexivity|]. split; [reflexivity|].
  exact (proj2 (parameters_are_shader_uniforms TonemapOperator_new F32.half []
                  [image_2x1] "Gamma" _ eq_refl eq_refl)).
Defined.

End Loading.

(** ** The curve on the reals *)

Section RealCurve.
Import LogarithmicOperator.

Lemma ln_10_pos : (0 < ln 10)%R.
Proof. rewrite <- ln_1. apply ln_increasing; lra. Qed.

Lemma ln_nonneg (x : R) : (1 <= x)%R -> (0 <= ln x)%R.
Proof.
  intros [Hx|<-]; [|rewrite ln_1; lra].
  rewrite <- ln_1. left. apply ln_increasing; lra.
Qed.

Lemma ln_monotone (x y : R) : (0 < x)%R -> (x <= y)%R -> (ln x <= ln y)%R.
Proof.
  intros Hx [Hlt|<-]; [|lra]. left. now apply ln_increasing.
Qed.

Lemma map_real (Lw exposure Lmax p q : R) :
  map Lw exposure Lmax p q
  = (ln (1 + p * (exposure * Lw)) / ln 10
     / (ln (1 + q * exposure * Lmax) / ln 10))%R.
Proof.
  unfold map. cbv zeta. destruct real_ops as (-> & -> & ->).
  now rewrite !lit_real_1.
Qed.

Lemma map_real_quotient (Lw exposure Lmax p q : R) :
  map Lw exposure Lmax p q
  = (ln (1 + p * (exposure * Lw)) / ln (1 + q * exposure * Lmax))%R.
Proof.
  rewrite map_real. assert (H10 := ln_10_pos).
  destruct (Req_dec_T (ln (1 + q * exposure * Lmax)) 0) as [E|E].
  - rewrite E. unfold Rdiv. rewrite Rmult_0_l, !Rinv_0. ring.
  - field. split; lra.
Qed.

Lemma map_real_monotone (exposure Lmax p q : R) :
  (0 <= exposure)%R ->
  (0 <= p)%R ->
  (0 < q * exposure * Lmax)%R ->
  forall Lw Lw' : R,
    (0 <= Lw <= Lw')%R ->
    (map Lw exposure Lmax p q <= map Lw' exposure Lmax p q)%R.
Proof.
  intros He Hp Hden Lw Lw' [H0 Hle].
  assert (HD : (0 < ln (1 + q * exposure * Lmax))%R).
  { rewrite <- ln_1. apply ln_increasing; lra. }
  rewrite !map_real_quotient.
  apply Rmult_le_compat_r; [left; now apply Rinv_0_lt_compat|].
  apply ln_monotone.
  - assert (0 <= p * (exposure * Lw))%R
      by (apply Rmult_le_pos; [|apply Rmult_le_pos]; lra).
    lra.
  - assert (exposure * Lw <= exposure * Lw')%R by (apply Rmult_le_compat_l; lra).
    assert (p * (exposure * Lw) <= p * (exposure * Lw'))%R
      by (apply Rmult_le_compat_l; lra).
    lra.
Qed.

(** X6.  On the reals and with a positive [q * exposure * Lmax] the formula
    [map] sends luminance 0 to 0, is non-decreasing in [Lw] for [p >= 0] and
    [exposure >= 0], sends [Lmax] to 1 when [p = q], and for [p <= q] keeps
    every luminance of [[0, Lmax]] within [[0, 1]]. *)
Theorem map_real_normalises (exposure Lmax p q : R) :
  (0 <= exposure)%R ->
  (0 <= p)%R ->
  (0 < q * exposure * Lmax)%R ->
  map 0%R exposure Lmax p q = 0%R
  /\ (forall Lw Lw' : R,
        (0 <= Lw <= Lw')%R ->
        (map Lw exposure Lmax p q <= map Lw' exposure Lmax p q)%R)
  /\ (p = q -> map Lmax exposure Lmax p q = 1%R)
  /\ (forall Lw : R,
        (p <= q)%R -> (0 <= Lmax)%R -> (0 <= Lw <= Lmax)%R ->
        (0 <= map Lw exposure Lmax p q <= 1)%R).
Proof.
  intros He Hp Hden.
  assert (HD : (0 < ln (1 + q * exposure * Lmax))%R).
  { rewrite <- ln_1. apply ln_increasing; lra. }
  assert (Hnum0 : forall Lw : R, (0 <= Lw)%R -> (0 <= ln (1 + p * (exposure * Lw)))%R).
  { intros Lw H0. apply ln_nonneg.
    assert (0 <= p * (exposure * Lw))%R by (apply Rmult_le_pos; [|apply Rmult_le_pos]; lra).
    lra. }
  split; [|split; [|split]].
  - rewrite map_real_quotient.
    replace (1 + p * (exposure * 0))%R with 1%R by ring.
    rewrite ln_1. unfold Rdiv. ring.
  - now apply map_real_monotone.
  - intros <-. rewrite map_real_quotient.
    replace (1 + p * (exposure * Lmax))%R with (1 + p * exposure * Lmax)%R by ring.
    field. lra.
  - intros Lw Hpq HLmax [H0 Hle]. rewrite map_real_quotient. split.
    + apply Rmult_le_pos; [now apply Hnum0|left; now apply Rinv_0_lt_compat].
    + apply Rmult_le_reg_r with (ln (1 + q * exposure * Lmax)); [exact HD|].
      replace (ln (1 + p * (exposure * Lw)) / ln (1 + q * exposure * Lmax)
               * ln (1 + q * exposure * Lmax))%R
        with (ln (1 + p * (exposure * Lw))) by (field; lra).
      rewrite Rmult_1_l. apply ln_monotone.
      * assert (0 <= p * (exposure * Lw))%R
          by (apply Rmult_le_pos; [|apply Rmult_le_pos]; lra).
        lra.
      * assert (exposure * Lw <= exposure * Lmax)%R by (apply Rmult_le_compat_l; lra).
        assert (0 <= exposure * Lmax)%R by (apply Rmult_le_pos; lra).
        assert (p * (exposure * Lw) <= p * (exposure * Lmax))%R
          by (apply Rmult_le_compat_l; lra).
        assert (p * (exposure * Lmax) <= q * (exposure * Lmax))%R
          by (apply Rmult_le_compat_r; lra).
        lra.
Qed.

Lemma map_real_normalises_witness :
  ((0 <= 1)%R /\ (0 <= 1)%R /\ (0 < 1 * 1 * 2)%R)
  /\ (map (T := R) 2 1 2 1 1 = 1)%R.
Proof.
  split; [lra|].
  exact (proj1 (proj2 (proj2 (map_real_normalises 1%R 2%R 1%R 1%R
                                ltac:(lra) ltac:(lra) ltac:(lra)))) eq_refl).
Defined.

Lemma clamp_real_range (x : R) :
  (0 <= clamp x (lit 0 0) (lit 1 0) <= 1)%R.
Proof.
  unfold clamp. rewrite lit_real_0, lit_real_1. cbn [s_ltb real_scalar].
  destruct (Rlt_dec x 0); [lra|]. destruct (Rlt_dec 1 x); lra.
Qed.


Lemma Rpow_range (c y : R) :
  (0 <= c <= 1)%R -> (0 < y)%R -> (0 <= Rpow c y <= 1)%R.
Proof.
  intros [H0 H1] Hy. unfold Rpow.
  destruct (Req_dec_T c 0) as [E|E]; [lra|].
  unfold Rpower. split; [left; apply exp_pos|].
  rewrite <- exp_0.
  assert (Hln : (ln c <= 0)%R).
  { rewrite <- ln_1. apply ln_monotone; lra. }
  assert (Hle : (y * ln c <= 0)%R) by nra.
  destruct Hle as [Hlt|Heq]; [left; now apply exp_increasing|rewrite Heq; lra].
Qed.








Lemma luminance_weights_sum :
  (lit 212671 6 + lit 71516 5 + lit 72169 6 = 1)%R.
Proof.
  cbn [lit real_scalar].
  change (10 ^ Z.of_nat 6) with 1000000. change (10 ^ Z.of_nat 5) with 100000.
  lra.
Qed.

Lemma gray_response_real (gamma Lmax p q v : R) :
  v <> 0%R ->
  tonemap gamma Lmax p q 1%R (Color3f.Color v v v)
  = Color3f.Color (graph_value gamma Lmax p q v) (graph_value gamma Lmax p q v)
                  (graph_value gamma Lmax p q v).
Proof.
  intros Hv.
  unfold tonemap, graph_value. cbv zeta.
  unfold Color3f.gammaCorrect, Color3f.clampedValue, Color3f.quot, Color3f.scale,
    Color3f.getLuminance.
  cbn [Color3f.r Color3f.g Color3f.b].
  assert (HLw : (lit 212671 6 * v + lit 71516 5 * v + lit 72169 6 * v)%S = v).
  { destruct real_ops as (-> & -> & _).
    replace (lit 212671 6 * v + lit 71516 5 * v + lit 72169 6 * v)%R
      with ((lit 212671 6 + lit 71516 5 + lit 72169 6) * v)%R by ring.
    rewrite luminance_weights_sum. ring. }
  rewrite HLw.
  assert (Hscale : forall Ld : R, (Ld * v / v)%S = Ld).
  { intros Ld. destruct real_ops as (_ & -> & ->). field. exact Hv. }
  rewrite Hscale.
  assert (H1 : map v 1%R Lmax p q = map v (lit 1 0) Lmax p q)
    by now rewrite lit_real_1.
  now rewrite H1.
Qed.

(** X8.  The curve of [graph] is the response of [process] and of the
    shader to gray.  With the parameters present, [graph] returns
    [graph_value] evaluated in binary32 and [process] stores the bytes of
    [tonemap] of each pixel evaluated in binary32; read on the reals and
    within the domain of the formula (gamma > 0, p >= 0, q * Lmax > 0), at
    exposure 1 and for a gray pixel [(v, v, v)] with [v > 0], every channel
    of [tonemap] equals [graph_value] at [v], and so do red, green and
    blue of the fragment shader's [main] for a gray texel. *)
Theorem graph_is_gray_response (lm : libm) (cast_undefined : float -> Z)
    (image : Image) (dst : Z) (exposure : float) (w : world)
    (gamma Lmax p q : Param) :
  parameters (this w) !! "Gamma" = Some gamma ->
  parameters (this w) !! "Lmax" = Some Lmax ->
  parameters (this w) !! "p" = Some p ->
  parameters (this w) !! "q" = Some q ->
  0 <= Vector2i.x (getSize image) ->
  0 <= Vector2i.y (getSize image) ->
  let W := Vector2i.x (getSize image) in
  let H := Vector2i.y (getSize image) in
  (forall value0 : float,
     graph lm value0 w
     = (Ok (graph_value (ops := float_scalar lm)
              (value gamma) (value Lmax) (value p) (value q) value0), w))
  /\ trace (snd (process lm cast_undefined image dst exposure w))
     = trace w
       ++ Store_progress F32.zero
          :: flat_map
               (fun k =>
                  let c :=
                    tonemap (ops := float_scalar lm) (value gamma) (value Lmax)
                      (value p) (value q) exposure
                      (ref image (k / W) (k mod W)) in
                  [ Store_dst (dst + 3 * k)
                      (to_uint8 cast_undefined
                         (F32.mul (F32.dec 255 0) (Color3f.r c)));
                    Store_dst (dst + 3 * k + 1)
                      (to_uint8 cast_undefined
                         (F32.mul (F32.dec 255 0) (Color3f.g c)));
                    Store_dst (dst + 3 * k + 2)
                      (to_uint8 cast_undefined
                         (F32.mul (F32.dec 255 0) (Color3f.b c)));
                    Store_progress
                      (progress_after (delta_of (getSize image))
                         (Z.to_nat (k + 1))) ])
               (seqZ 0 (W * H))
  /\ (forall gamma' Lmax' p' q' v a : R,
        (0 < gamma')%R -> (0 <= p')%R -> (0 < q' * Lmax')%R -> (0 < v)%R ->
        let y := graph_value gamma' Lmax' p' q' v in
        tonemap gamma' Lmax' p' q' 1%R (Color3f.Color v v v) = Color3f.Color y y y
        /\ FragmentShader.rgb
             (FragmentShader.main 1%R gamma' Lmax' p' q'
                (FragmentShader.Vec4 v v v a))
           = Color3f.Color y y y).
Proof.
  intros Hg HL Hp Hq HW HH W H.
  split; [intros value0; now apply run_graph|]. split.
  { now rewrite (process_applies_tonemap lm cast_undefined image dst exposure w
                   gamma Lmax p q Hg HL Hp Hq HW HH). }
  intros gamma' Lmax' p' q' v a _ _ _ Hv y.
  assert (E := gray_response_real gamma' Lmax' p' q' v ltac:(lra)).
  split; [exact E|].
  rewrite (main_real 1%R gamma' Lmax' p' q' (FragmentShader.Vec4 v v v a)).
  exact E.
Qed.

Lemma graph_is_gray_response_witness :
  let w := world_ready image_2x1 F32.half in
  parameters (this w) !! "Lmax" = Some (ReadOnly (F32.dec 2 0) "Lmax")
  /\ graph libm_sample (F32.dec 2 0) w = (Ok F32.one, w)
  /\ (tonemap (T := R) 2 1 1 1 1 (Color3f.Color 2 2 2)
      = Color3f.Color (graph_value 2 1 1 1 2) (graph_value 2 1 1 1 2)
                      (graph_value 2 1 1 1 2))%R.
Proof.
  split; [reflexivity|].
  destruct (graph_is_gray_response libm_sample cast_sample image_2x1 0 (F32.dec 1 0)
              (world_ready image_2x1 F32.half) _ _ _ _
              eq_refl eq_refl eq_refl eq_refl ltac:(cbn; lia) ltac:(cbn; lia))
    as (Hgraph & _ & Hreal).
  split.
  - rewrite Hgraph. reflexivity.
  - apply (Hreal 2%R 1%R 1%R 1%R 2%R 0%R); lra.
Defined.

End RealCurve.

(** ** binary32: products with one and quotients of equal numbers *)

Section Binary32Exact.

Lemma digits2_pos_iter (k : nat) (m : positive) :
  Zpos (digits2_pos (Nat.iter k xO m)) = Zpos (digits2_pos m) + Z.of_nat k.
Proof.
  induction k as [|k IH]; [cbn [Nat.iter nat_rect Z.of_nat]; lia|].
  change (Nat.iter (S k) xO m) with (xO (Nat.iter k xO m)).
  cbn [digits2_pos]. rewrite Pos2Z.inj_succ, IH. lia.
Qed.

(** A canonical mantissa followed by [k] zeros rounds to itself. *)
Lemma binary_round_aux_canonical (s : bool) (m : positive) (k : nat) (e : Z) :
  bounded F32.prec F32.emax m e = true ->
  binary_round_aux F32.prec F32.emax s (Zpos (Nat.iter k xO m)) (e - Z.of_nat k)
    loc_Exact
  = S754_finite s m e.
Proof.
  unfold bounded, canonical_mantissa. intros Hb.
  apply andb_prop in Hb as [Hc He].
  apply Z.eqb_eq in Hc. apply Z.leb_le in He.
  unfold binary_round_aux, shr_fexp, Zdigits2.
  rewrite digits2_pos_iter. cbn [shr_record_of_loc].
  replace (Zpos (digits2_pos m) + Z.of_nat k + (e - Z.of_nat k))
    with (Zpos (digits2_pos m) + e) by lia.
  rewrite Hc.
  replace (e - (e - Z.of_nat k)) with (Z.of_nat k) by lia.
  rewrite shr_exact. cbn [shr_m loc_of_shr_record round_nearest_even].
  replace (e - Z.of_nat k + Z.of_nat k) with e by lia.
  rewrite Hc, Z.sub_diag. cbn [shr shr_m].
  now rewrite (proj2 (Z.leb_le _ _) He).
Qed.

Lemma mul_one_l (x : float) :
  valid_binary F32.prec F32.emax x = true -> F32.mul F32.one x = x.
Proof.
  destruct x as [s|s| |s m e]; try reflexivity. intros Hv.
  unfold F32.mul, F32.one, SFmul. cbn [xorb].
  replace (-23 + e) with (e - Z.of_nat 23) by lia.
  change (8388608 * m)%positive with (Nat.iter 23 xO m).
  now apply binary_round_aux_canonical.
Qed.

Lemma mul_one_r (x : float) :
  valid_binary F32.prec F32.emax x = true -> F32.mul x F32.one = x.
Proof.
  destruct x as [s|s| |s m e]; try (destruct s; reflexivity); try reflexivity.
  intros Hv. unfold F32.mul, F32.one, SFmul.
  rewrite xorb_false_r, Pos.mul_comm.
  replace (e + -23) with (e - Z.of_nat 23) by lia.
  change (8388608 * m)%positive with (Nat.iter 23 xO m).
  now apply binary_round_aux_canonical.
Qed.

Lemma div_eucl_pair (a b : Z) : Z.div_eucl a b = (a / b, a mod b).
Proof. unfold Z.div, Z.modulo. now destruct (Z.div_eucl a b). Qed.

(** A finite number divided by itself is exactly 1. *)
Lemma div_self (s : bool) (m : positive) (e : Z) :
  F32.div (S754_finite s m e) (S754_finite s m e) = F32.one.
Proof.
  unfold F32.div, SFdiv, SFdiv_core_binary, Zdigits2.
  rewrite !Z.sub_diag. unfold fexp, emin, F32.prec, F32.emax.
  change (Z.min (Z.max (0 - 24) (3 - 128 - 24)) 0) with (-24).
  change (0 - -24) with 24. cbv zeta.
  rewrite Z.shiftl_mul_pow2 by lia.
  rewrite div_eucl_pair, Z.mul_comm, Z.div_mul, Z_mod_mult by lia.
  assert (Hloc : new_location (Zpos m) 0 = loc_Exact).
  { unfold new_location. now destruct (Z.even (Zpos m)). }
  rewrite Hloc. now destruct s.
Qed.

End Binary32Exact.

(** ** Exact values of the curve and of a black pixel *)

Section ExactValues.
Import LogarithmicOperator.

(** X9.  With [p] equal to [q], [graph] at the value "Lmax" returns exactly
    [pow(1, 1/gamma)] in binary32: numerator and denominator of [map] are
    then the same logarithm [d], and [d / d] is exactly 1 whenever [d] is
    finite and not zero. *)
Theorem graph_at_Lmax (lm : libm) (w : world) (gamma Lmax p q : Param)
    (s : bool) (m : positive) (e : Z) :
  parameters (this w) !! "Gamma" = Some gamma ->
  parameters (this w) !! "Lmax" = Some Lmax ->
  parameters (this w) !! "p" = Some p ->
  parameters (this w) !! "q" = Some q ->
  value p = value q ->
  valid_binary F32.prec F32.emax (value p) = true ->
  valid_binary F32.prec F32.emax (value Lmax) = true ->
  log10f lm (F32.add F32.one (F32.mul (value p) (value Lmax))) = S754_finite s m e ->
  map (ops := float_scalar lm) (value Lmax) F32.one (value Lmax) (value p) (value q)
    = F32.one
  /\ graph lm (value Lmax) w
     = (Ok (powf lm F32.one (F32.div F32.one (value gamma))), w).
Proof.
  intros Hg HL Hp Hq Hpq Hvp HvL Hd.
  assert (E : map (ops := float_scalar lm) (value Lmax) F32.one (value Lmax)
                (value p) (value q) = F32.one).
  { unfold map. cbv zeta. cbn [s_add s_mul s_div log10 lit float_scalar].
    change (F32.dec 1 0) with F32.one.
    rewrite <- Hpq, (mul_one_l _ HvL), (mul_one_r _ Hvp), Hd.
    apply div_self. }
  split; [exact E|].
  rewrite (run_graph lm (value Lmax) w gamma Lmax p q Hg HL Hp Hq).
  unfold graph_value. cbv zeta. change (lit 1 0) with F32.one. rewrite E.
  reflexivity.
Qed.

Lemma graph_at_Lmax_witness :
  let w := world_ready image_2x1 F32.half in
  (valid_binary F32.prec F32.emax (F32.dec 1 0) = true
   /\ valid_binary F32.prec F32.emax (F32.dec 2 0) = true
   /\ log10f libm_sample (F32.add F32.one (F32.mul (F32.dec 1 0) (F32.dec 2 0)))
      = S754_finite false 16009533 (-25))
  /\ graph libm_sample (F32.dec 2 0) w = (Ok F32.one, w).
Proof.
  split; [repeat split|].
  exact (proj2 (graph_at_Lmax libm_sample (world_ready image_2x1 F32.half)
                  _ _ _ _ false 16009533 (-25)
                  eq_refl eq_refl eq_refl eq_refl eq_refl eq_refl eq_refl eq_refl)).
Defined.

Lemma black_luminance (lm : libm) (color : Color3 float) :
  F32.is_zero (Color3f.r color) = true ->
  F32.is_zero (Color3f.g color) = true ->
  F32.is_zero (Color3f.b color) = true ->
  F32.is_zero (Color3f.getLuminance (ops := float_scalar lm) color) = true.
Proof.
  destruct color as [[sr|?| |? ? ?] [sg|?| |? ? ?] [sb|?| |? ? ?]];
    try discriminate.
  intros _ _ _. now destruct sr, sg, sb.
Qed.

Lemma zero_times_over_zero (x z z' : float) :
  F32.is_zero z = true -> F32.is_zero z' = true ->
  F32.div (F32.mul x z) z' = S754_nan.
Proof.
  destruct z; try discriminate. destruct z'; try discriminate.
  intros _ _. now destruct x.
Qed.

(** X10.  A black pixel is computed as 0/0: for a color whose three
    channels are zero the luminance [Lw] is a zero, so every channel of
    [Ld * color / Lw] is NaN, whatever [Ld] is and so for every exposure
    and all parameters.  (What the clamp of color.h makes of a NaN is
    outside the sources.) *)
Theorem black_pixel_is_nan (lm : libm) (exposure Lmax p q : float)
    (color : Color3 float) :
  F32.is_zero (Color3f.r color) = true ->
  F32.is_zero (Color3f.g color) = true ->
  F32.is_zero (Color3f.b color) = true ->
  let Lw := Color3f.getLuminance (ops := float_scalar lm) color in
  let Ld := map (ops := float_scalar lm) Lw exposure Lmax p q in
  F32.is_zero Lw = true
  /\ Color3f.quot (ops := float_scalar lm)
       (Color3f.scale (ops := float_scalar lm) Ld color) Lw
     = gray S754_nan.
Proof.
  intros Hr Hg Hb Lw Ld.
  assert (HLw := black_luminance lm color Hr Hg Hb).
  split; [exact HLw|].
  unfold Color3f.quot, Color3f.scale, gray.
  cbn [Color3f.r Color3f.g Color3f.b s_mul s_div float_scalar].
  now rewrite !zero_times_over_zero.
Qed.

Lemma black_pixel_is_nan_witness :
  F32.is_zero (Color3f.r (gray F32.zero)) = true
  /\ Color3f.quot (ops := float_scalar libm_sample)
       (Color3f.scale (ops := float_scalar libm_sample)
          (map (ops := float_scalar libm_sample)
             (Color3f.getLuminance (ops := float_scalar libm_sample)
                (gray F32.zero))
             (F32.dec 1 0) (F32.dec 2 0) (F32.dec 1 0) (F32.dec 1 0))
          (gray F32.zero))
       (Color3f.getLuminance (ops := float_scalar libm_sample) (gray F32.zero))
     = gray S754_nan.
Proof.
  split; [reflexivity|].
  exact (proj2 (black_pixel_is_nan libm_sample (F32.dec 1 0) (F32.dec 2 0)
                  (F32.dec 1 0) (F32.dec 1 0) (gray F32.zero)
                  eq_refl eq_refl eq_refl)).
Defined.

End ExactValues.

(** ** The progress value on images of [2^n] pixels *)

Section PowerOfTwo.
Import LogarithmicOperator.

(** Adding [2^-n] to a multiple of it that lies in [[2^-n, 1)]. *)
Lemma add_pow2 (n : Z) (m : positive) (j : Z) :
  0 <= n <= 24 ->
  0 <= j <= 23 ->
  2 ^ 23 <= Zpos m < 2 ^ 24 ->
  Zpos m + 2 ^ (23 - j) <= 2 ^ 24 ->
  F32.add (S754_finite false m (j - n - 23)) (S754_finite false 8388608 (- n - 23))
  = if Zpos m + 2 ^ (23 - j) <? 2 ^ 24
    then S754_finite false (Z.to_pos (Zpos m + 2 ^ (23 - j))) (j - n - 23)
    else S754_finite false 8388608 (j - n - 22).
Proof.
  intros Hn Hj Hm Hsum.
  assert (Hpow : 0 < 2 ^ (23 - j)) by (apply Z.pow_pos_nonneg; lia).
  unfold F32.add, SFadd. cbv zeta.
  rewrite Z.min_r by lia.
  assert (Hx : Zpos (fst (shl_align m (j - n - 23) (- n - 23))) = Zpos m * 2 ^ j).
  { unfold shl_align. replace (- n - 23 - (j - n - 23)) with (- j) by lia.
    destruct j as [|pj|pj]; try lia.
    - change (- 0) with 0. cbn [fst]. rewrite Z.pow_0_r. lia.
    - change (- Z.pos pj) with (Z.neg pj). cbn [fst]. rewrite Pos2Nat.inj_iter.
      change (nat_rect _ m (fun _ => xO) (Pos.to_nat pj))
        with (Nat.iter (Pos.to_nat pj) xO m).
      now rewrite iter_xO_pow, positive_nat_Z. }
  rewrite (shl_align_ge 8388608 (- n - 23) (- n - 23)) by lia.
  cbn [cond_Zopp fst]. rewrite Hx.
  set (k := Z.to_pos (Zpos m + 2 ^ (23 - j))).
  assert (Hk : Zpos k = Zpos m + 2 ^ (23 - j)) by (subst k; lia).
  assert (Hsplit : 2 ^ 23 = 2 ^ (23 - j) * 2 ^ j).
  { rewrite <- Z.pow_add_r by lia. f_equal. lia. }
  destruct (Z.ltb_spec (Zpos m + 2 ^ (23 - j)) (2 ^ 24)) as [Hlt|Hge].
  - replace (Zpos m * 2 ^ j + 8388608)
      with (Zpos (Nat.iter (Z.to_nat j) xO k)).
    2:{ rewrite iter_xO_pow, Hk, Z2Nat.id by lia.
        change 8388608 with (2 ^ 23). rewrite Hsplit. ring. }
    cbn [binary_normalize]. rewrite binary_round_exact.
    + f_equal. lia.
    + apply digits2_pos_bounds. lia.
    + lia.
  - assert (Hk24 : Zpos m + 2 ^ (23 - j) = 2 ^ 24) by lia.
    replace (Zpos m * 2 ^ j + 8388608)
      with (Zpos (Nat.iter (S (Z.to_nat j)) xO 8388608%positive)).
    2:{ rewrite iter_xO_pow, Nat2Z.inj_succ, Z2Nat.id, Z.pow_succ_r by lia.
        change (2 ^ 23) with 8388608 in Hsplit.
        change (2 ^ 24) with 16777216 in Hk24.
        nia. }
    cbn [binary_normalize]. rewrite binary_round_exact.
    + f_equal. lia.
    + reflexivity.
    + lia.
Qed.

(** The sum of [k] increments of [2^-n], for [0 < k < 2^n], is exact. *)
Lemma progress_exact_pow2 (n : Z) (k : nat) :
  0 <= n <= 24 ->
  (1 <= k)%nat -> Z.of_nat k < 2 ^ n ->
  exists (j : Z) (m : positive),
    0 <= j < n
    /\ 2 ^ j <= Z.of_nat k < 2 ^ (j + 1)
    /\ Zpos m = Z.of_nat k * 2 ^ (23 - j)
    /\ progress_after (S754_finite false 8388608 (- n - 23)) k
       = S754_finite false m (j - n - 23).
Proof.
  intros Hn. induction k as [|k IH]; [lia|]. intros _ Hlt.
  destruct k as [|k'].
  { exists 0, 8388608%positive.
    assert (0 < n).
    { destruct (Z.eq_dec n 0) as [->|]; [|lia]. cbn in Hlt. lia. }
    split; [lia|]. split; [cbn; lia|]. split; [cbn; lia|].
    unfold progress_after. cbn [Nat.iter nat_rect]. cbn [F32.add SFadd F32.zero].
    f_equal; lia. }
  destruct IH as (j & m & Hj & Hk & Hm & E); [lia|lia|].
  set (k := S k') in *.
  assert (Hjn : 2 ^ (j + 1) <= 2 ^ n) by (apply Z.pow_le_mono_r; lia).
  assert (Ha : 0 < 2 ^ (23 - j)) by (apply Z.pow_pos_nonneg; lia).
  assert (Hlo : 2 ^ j * 2 ^ (23 - j) = 2 ^ 23).
  { rewrite <- Z.pow_add_r by lia. f_equal. lia. }
  assert (Hhi : 2 ^ (j + 1) * 2 ^ (23 - j) = 2 ^ 24).
  { rewrite <- Z.pow_add_r by lia. f_equal. lia. }
  rewrite progress_after_S, E, add_pow2; [|lia|lia|nia|nia].
  destruct (Z.ltb_spec (Zpos m + 2 ^ (23 - j)) (2 ^ 24)) as [Hs|Hs].
  - exists j, (Z.to_pos (Zpos m + 2 ^ (23 - j))).
    split; [lia|]. split; [nia|]. split; [|reflexivity].
    rewrite Z2Pos.id by lia. rewrite Hm. lia.
  - assert (Hk1 : Z.of_nat (S k) = 2 ^ (j + 1)) by nia.
    assert (Hj1 : j + 1 < n).
    { destruct (Z_lt_le_dec (j + 1) n) as [|Hge]; [assumption|].
      assert (2 ^ n <= 2 ^ (j + 1)) by (apply Z.pow_le_mono_r; lia). lia. }
    exists (j + 1), 8388608%positive.
    split; [lia|]. split.
    { rewrite Hk1. split; [lia|]. apply Z.pow_lt_mono_r; lia. }
    split.
    { rewrite Hk1, <- Z.pow_add_r by lia.
      now replace (j + 1 + (23 - (j + 1))) with 23 by lia. }
    f_equal. lia.
Qed.

Lemma progress_pow2_step (n : Z) (k : nat) :
  0 <= n <= 24 ->
  Z.of_nat k < 2 ^ n ->
  SFltb (progress_after (S754_finite false 8388608 (- n - 23)) k)
        (progress_after (S754_finite false 8388608 (- n - 23)) (S k)) = true
  /\ (Z.of_nat (S k) = 2 ^ n ->
      progress_after (S754_finite false 8388608 (- n - 23)) (S k) = F32.one).
Proof.
  intros Hn Hlt. destruct k as [|k'].
  { split; [reflexivity|]. intros H1.
    assert (n = 0).
    { destruct (Z.eq_dec n 0) as [|Hne]; [assumption|].
      assert (2 ^ 1 <= 2 ^ n) by (apply Z.pow_le_mono_r; lia).
      change (2 ^ 1) with 2 in *. lia. }
    subst n. reflexivity. }
  set (k := S k') in *.
  destruct (progress_exact_pow2 n k Hn) as (j & m & Hj & Hk & Hm & E); [lia|lia|].
  assert (Hjn : 2 ^ (j + 1) <= 2 ^ n) by (apply Z.pow_le_mono_r; lia).
  assert (Ha : 0 < 2 ^ (23 - j)) by (apply Z.pow_pos_nonneg; lia).
  assert (Hlo : 2 ^ j * 2 ^ (23 - j) = 2 ^ 23).
  { rewrite <- Z.pow_add_r by lia. f_equal. lia. }
  assert (Hhi : 2 ^ (j + 1) * 2 ^ (23 - j) = 2 ^ 24).
  { rewrite <- Z.pow_add_r by lia. f_equal. lia. }
  rewrite progress_after_S, E, add_pow2; [|lia|lia|nia|nia].
  destruct (Z.ltb_spec (Zpos m + 2 ^ (23 - j)) (2 ^ 24)) as [Hs|Hs].
  - split.
    + unfold SFltb, SFcompare. rewrite Z.compare_refl.
      change (Pos.compare_cont Eq m (Z.to_pos (Zpos m + 2 ^ (23 - j))))
        with (Pos.compare m (Z.to_pos (Zpos m + 2 ^ (23 - j)))).
      replace (Pos.compare m (Z.to_pos (Zpos m + 2 ^ (23 - j)))) with Lt;
        [reflexivity|].
      symmetry. apply Pos.compare_lt_iff. lia.
    + intros Hend. exfalso. nia.
  - split.
    + unfold SFltb, SFcompare.
      replace (Z.compare (j - n - 23) (j - n - 22)) with Lt; [reflexivity|].
      symmetry. apply Z.compare_lt_iff. lia.
    + intros Hend.
      assert (j + 1 = n).
      { assert (Hk1 : Z.of_nat (S k) = 2 ^ (j + 1)) by nia.
        rewrite Hk1 in Hend. apply (Z.pow_inj_r 2); lia. }
      unfold F32.one. f_equal. lia.
Qed.

Lemma delta_pow2 (size : Vector2i.t) (n : Z) :
  0 <= n <= 24 ->
  Vector2i.x size * Vector2i.y size = 2 ^ n ->
  delta_of size = S754_finite false 8388608 (- n - 23).
Proof.
  intros Hn Hsize. unfold delta_of, int_mul. rewrite Hsize. clear Hsize.
  rewrite <- (Z2Nat.id n) by lia.
  assert (Hk : (Z.to_nat n <= 24)%nat) by lia. clear Hn.
  generalize dependent (Z.to_nat n). clear n. intros k Hk.
  do 25 (destruct k as [|k]; [reflexivity|]). lia.
Qed.

(** X11.  On an image of [2^n] pixels with [n <= 24] the progress value
    behaves as meant: the increment is exactly [2^-n], each of the [2^n]
    sums is greater in binary32 than the one before, and the value on
    return is exactly 1. *)
Theorem progress_exact_on_pow2 (lm : libm) (cast_undefined : float -> Z)
    (image : Image) (dst : Z) (exposure : float) (w : world)
    (gamma Lmax p q : Param) (n : Z) :
  parameters (this w) !! "Gamma" = Some gamma ->
  parameters (this w) !! "Lmax" = Some Lmax ->
  parameters (this w) !! "p" = Some p ->
  parameters (this w) !! "q" = Some q ->
  0 <= Vector2i.x (getSize image) ->
  0 <= Vector2i.y (getSize image) ->
  0 <= n <= 24 ->
  Vector2i.x (getSize image) * Vector2i.y (getSize image) = 2 ^ n ->
  delta_of (getSize image) = S754_finite false 8388608 (- n - 23)
  /\ progress (snd (process lm cast_undefined image dst exposure w)) = F32.one
  /\ (forall k : nat,
        Z.of_nat k < 2 ^ n ->
        SFltb (progress_after (delta_of (getSize image)) k)
              (progress_after (delta_of (getSize image)) (S k)) = true).
Proof.
  intros Hg HL Hp Hq HW HH Hn Hsize.
  assert (Hdelta := delta_pow2 (getSize image) n Hn Hsize).
  split; [exact Hdelta|]. split.
  - rewrite (process_run lm cast_undefined image dst exposure gamma Lmax p q w
               Hg HL Hp Hq HW HH).
    cbn [snd progress]. rewrite Hdelta, Hsize.
    assert (Hpos : 0 < 2 ^ n) by (apply Z.pow_pos_nonneg; lia).
    replace (Z.to_nat (2 ^ n)) with (S (Z.to_nat (2 ^ n - 1))) by lia.
    apply (progress_pow2_step n (Z.to_nat (2 ^ n - 1)) Hn); lia.
  - intros k Hk. rewrite Hdelta. now apply progress_pow2_step.
Qed.

Lemma progress_exact_on_pow2_witness :
  let w := world_ready image_2x1 F32.half in
  Vector2i.x (getSize image_2x1) * Vector2i.y (getSize image_2x1) = 2 ^ 1
  /\ progress (snd (process libm_sample cast_sample image_2x1 0 (F32.dec 1 0) w))
     = F32.one.
Proof.
  split; [reflexivity|].
  exact (proj1 (proj2
           (progress_exact_on_pow2 libm_sample cast_sample image_2x1 0 (F32.dec 1 0)
              (world_ready image_2x1 F32.half) _ _ _ _ 1
              eq_refl eq_refl eq_refl eq_refl ltac:(cbn; lia) ltac:(cbn; lia)
              ltac:(lia) eq_refl))).
Defined.

End PowerOfTwo.

(** ** The vertex shader on the reals *)

Section Vertex.
Import VertexShader.
Local Open Scope R_scope.

Lemma lit_real_2 : (lit 2 0 : R) = 2.
Proof. cbn. change (10 ^ Z.of_nat 0)%Z with 1%Z. lra. Qed.

Lemma vertex_main_real (position : vec2 R) :
  main position
  = Outputs (FragmentShader.Vec4 (x position * 2 - 1) (y position * 2 - 1) 0 1)
            (Vec2 (x position) (1 - y position)).
Proof.
  unfold main. rewrite lit_real_2, lit_real_1, lit_real_0. reflexivity.
Qed.

(** X12.  Read on the reals, the vertex shader sends the unit square of
    [position] onto the whole clip square [[-1,1] x [-1,1]] at depth 0 and
    weight 1 (a position is in the unit square exactly when its vertex is
    in the clip square, and the clip point [(X', Y')] is the vertex of the
    position [((X'+1)/2, (Y'+1)/2)]), and the texture coordinate it hands to
    the fragment shader is the position flipped top to bottom: a vertex at
    clip height [Y] carries [v = (1 - Y) / 2], one at clip abscissa [X]
    carries [u = (X + 1) / 2]. *)
Theorem vertex_covers_clip_square (position : vec2 R) :
  let out := main position in
  let X := FragmentShader.r (gl_Position out) in
  let Y := FragmentShader.g (gl_Position out) in
  FragmentShader.b (gl_Position out) = 0
  /\ FragmentShader.a (gl_Position out) = 1
  /\ x (uv out) = (X + 1) / 2
  /\ y (uv out) = (1 - Y) / 2
  /\ (0 <= x position <= 1 <-> -1 <= X <= 1)
  /\ (0 <= y position <= 1 <-> -1 <= Y <= 1)
  /\ (0 <= y position <= 1 <-> 0 <= y (uv out) <= 1)
  /\ (forall X' Y' : R,
        let out' := main (Vec2 ((X' + 1) / 2) ((Y' + 1) / 2)) in
        FragmentShader.r (gl_Position out') = X'
        /\ FragmentShader.g (gl_Position out') = Y').
Proof.
  cbv zeta. rewrite vertex_main_real.
  cbn [gl_Position uv x y FragmentShader.r FragmentShader.g FragmentShader.b
       FragmentShader.a].
  repeat split; try lra.
  all: rewrite vertex_main_real;
    cbn [gl_Position FragmentShader.r FragmentShader.g x y]; lra.
Qed.

End Vertex.

(** ** Running [process] again *)

Section Again.
Import LogarithmicOperator.

Lemma process_bytes_length (lm : libm) (cast_undefined : float -> Z)
    (image : Image) (exposure gamma Lmax p q : float) :
  0 <= Vector2i.x (getSize image) ->
  0 <= Vector2i.y (getSize image) ->
  Z.of_nat (length (process_bytes lm cast_undefined image exposure gamma Lmax p q))
  = 3 * (Vector2i.x (getSize image) * Vector2i.y (getSize image)).
Proof.
  intros HW HH. unfold process_bytes. cbv zeta.
  set (n := Vector2i.x (getSize image) * Vector2i.y (getSize image)).
  assert (Hn : 0 <= n) by (subst n; nia).
  replace (seqZ 0 n) with (seqZ 0 (Z.of_nat (Z.to_nat n)))
    by (now rewrite Z2Nat.id).
  unfold nth_pixel.
  rewrite (pixel_bytes_flat_length lm cast_undefined exposure gamma Lmax p q
             (fun k => ref image (k / Vector2i.x (getSize image))
                                 (k mod Vector2i.x (getSize image)))).
  lia.
Qed.

(** X13.  [process] keeps nothing from one call to the next: called a second
    time with the same arguments it succeeds again, issues the same stores
    in the same order, and ends with the same progress value, whatever that
    value was before either call; the operator is the one before the first
    call, and the bytes behind [dst] after the second call are the bytes
    after the first. *)
Theorem process_twice (lm : libm) (cast_undefined : float -> Z)
    (image : Image) (dst : Z) (exposure : float) (w : world)
    (gamma Lmax p q : Param) (buf : list Z) :
  parameters (this w) !! "Gamma" = Some gamma ->
  parameters (this w) !! "Lmax" = Some Lmax ->
  parameters (this w) !! "p" = Some p ->
  parameters (this w) !! "q" = Some q ->
  0 <= Vector2i.x (getSize image) ->
  0 <= Vector2i.y (getSize image) ->
  0 <= dst ->
  dst + 3 * (Vector2i.x (getSize image) * Vector2i.y (getSize image))
    <= Z.of_nat (length buf) ->
  let w1 := snd (process lm cast_undefined image dst exposure w) in
  let r2 := process lm cast_undefined image dst exposure w1 in
  exists events : list event,
    trace w1 = trace w ++ events
    /\ fst r2 = Ok tt
    /\ trace (snd r2) = trace w1 ++ events
    /\ this (snd r2) = this w
    /\ progress (snd r2) = progress w1
    /\ length (replay events buf) = length buf
    /\ replay (events ++ events) buf = replay events buf.
Proof.
  intros Hg HL Hp Hq HW HH Hdst Hlen w1 r2.
  set (n := Vector2i.x (getSize image) * Vector2i.y (getSize image)) in *.
  assert (Hn : 0 <= n) by (subst n; nia).
  pose proof (process_run lm cast_undefined image dst exposure gamma Lmax p q w
                Hg HL Hp Hq HW HH) as E1.
  assert (Hw1 : this w1 = this w) by (subst w1; now rewrite E1).
  pose proof (process_run lm cast_undefined image dst exposure gamma Lmax p q w1)
    as E2.
  rewrite Hw1 in E2. specialize (E2 Hg HL Hp Hq HW HH).
  set (events := process_events lm cast_undefined image dst exposure
                   (value gamma) (value Lmax) (value p) (value q)) in *.
  set (bytes := process_bytes lm cast_undefined image exposure
                  (value gamma) (value Lmax) (value p) (value q)).
  assert (Hbytes : Z.of_nat (length bytes) = 3 * n)
    by (now apply process_bytes_length).
  assert (Hreplay : forall b : list Z,
            dst + 3 * n <= Z.of_nat (length b) ->
            replay events b
            = take (Z.to_nat dst) b ++ bytes ++ drop (Z.to_nat (dst + 3 * n)) b).
  { intros b Hb. now apply replay_process_events. }
  assert (Hsame : length (replay events buf) = length buf).
  { rewrite (Hreplay buf Hlen), !length_app, length_take, length_drop. lia. }
  exists events. subst r2. rewrite E2. subst w1. rewrite E1.
  cbn [fst snd this progress trace].
  repeat split; try assumption.
  rewrite replay_app.
  rewrite (Hreplay (replay events buf)) by (rewrite Hsame; exact Hlen).
  rewrite (Hreplay buf Hlen) at 3.
  rewrite (Hreplay buf Hlen).
  set (front := take (Z.to_nat dst) buf).
  set (back := drop (Z.to_nat (dst + 3 * n)) buf).
  assert (Hfront : length front = Z.to_nat dst)
    by (subst front; rewrite length_take; lia).
  f_equal.
  - rewrite take_app_le by lia. rewrite take_ge by lia. reflexivity.
  - f_equal. rewrite app_assoc.
    rewrite drop_app_ge by (rewrite length_app; lia).
    rewrite length_app.
    replace (Z.to_nat (dst + 3 * n) - (length front + length bytes))%nat
      with 0%nat by lia.
    reflexivity.
Qed.

Lemma process_twice_witness :
  let w := world_ready image_2x1 F32.half in
  let w1 := snd (process libm_sample cast_sample image_2x1 0 (F32.dec 1 0) w) in
  let r2 := process libm_sample cast_sample image_2x1 0 (F32.dec 1 0) w1 in
  exists events : list event,
    trace w1 = trace w ++ events
    /\ fst r2 = Ok tt
    /\ trace (snd r2) = trace w1 ++ events
    /\ this (snd r2) = this w
    /\ progress (snd r2) = progress w1
    /\ length (replay events [7; 7; 7; 7; 7; 7; 7]) = 7%nat
    /\ replay (events ++ events) [7; 7; 7; 7; 7; 7; 7]
       = replay events [7; 7; 7; 7; 7; 7; 7].
Proof.
  exact (process_twice libm_sample cast_sample image_2x1 0 (F32.dec 1 0)
           (world_ready image_2x1 F32.half) _ _ _ _ [7; 7; 7; 7; 7; 7; 7]
           eq_refl eq_refl eq_refl eq_refl ltac:(cbn; lia) ltac:(cbn; lia)
           ltac:(lia) ltac:(cbn; lia)).
Defined.

End Again.

(** ** The range of the fragment shader's output *)

Section ShaderRange.
Import LogarithmicOperator.
Local Open Scope R_scope.

Lemma Rpow_one (y : R) : Rpow 1 y = 1.
Proof.
  unfold Rpow. destruct (Req_dec_T 1 0) as [E|_]; [lra|].
  unfold Rpower. rewrite ln_1, Rmult_0_r. apply exp_0.
Qed.

(** X14.  Read on the reals and within the domain of the formula (gamma >
    0, exposure > 0, p >= 0, q * exposure * Lmax > 0 and a texel of
    positive luminance, so that no division is by zero and every logarithm
    is of a number above 1), the fragment shader writes an opaque color
    within range: red, green and blue of [out_color] lie in [[0, 1]] and
    alpha is 1; the texel's own alpha has no influence on the result. *)
Theorem shader_output_range (exposure gamma Lmax p q : R)
    (texel : FragmentShader.vec4 R) :
  0 < gamma ->
  0 < exposure ->
  0 <= p ->
  0 < q * exposure * Lmax ->
  0 < FragmentShader.getLuminance texel ->
  let out_color := FragmentShader.main exposure gamma Lmax p q texel in
  (0 <= FragmentShader.r out_color <= 1
   /\ 0 <= FragmentShader.g out_color <= 1
   /\ 0 <= FragmentShader.b out_color <= 1)
  /\ FragmentShader.a out_color = 1
  /\ (forall alpha : R,
        FragmentShader.main exposure gamma Lmax p q
          (FragmentShader.Vec4 (FragmentShader.r texel) (FragmentShader.g texel)
             (FragmentShader.b texel) alpha)
        = out_color).
Proof.
  intros Hgamma _ _ _ _ out_color.
  set (c := tonemap gamma Lmax p q exposure (FragmentShader.rgb texel)).
  assert (Hy : 0 < 1 / gamma).
  { unfold Rdiv. rewrite Rmult_1_l. now apply Rinv_0_lt_compat. }
  assert (Hc : 0 <= Color3f.r c <= 1 /\ 0 <= Color3f.g c <= 1
               /\ 0 <= Color3f.b c <= 1).
  { subst c. unfold tonemap. cbv zeta.
    unfold Color3f.gammaCorrect, Color3f.clampedValue.
    cbn [Color3f.r Color3f.g Color3f.b pow real_scalar].
    repeat split; apply Rpow_range; try apply clamp_real_range;
      rewrite lit_real_1; exact Hy. }
  assert (Hrgb : FragmentShader.rgb out_color = c) by apply main_real.
  assert (Ha : forall t : FragmentShader.vec4 R,
            FragmentShader.a (FragmentShader.main exposure gamma Lmax p q t) = 1).
  { intros t. rewrite shader_alpha. apply Rpow_one. }
  split.
  { rewrite <- Hrgb in Hc. exact Hc. }
  split; [apply Ha|].
  intros alpha. subst out_color. destruct texel as [r g b a].
  cbn [FragmentShader.r FragmentShader.g FragmentShader.b].
  assert (E : forall t t' : FragmentShader.vec4 R,
            FragmentShader.rgb t = FragmentShader.rgb t' ->
            FragmentShader.a t = FragmentShader.a t' -> t = t').
  { intros [r1 g1 b1 a1] [r2 g2 b2 a2] H1 H2.
    unfold FragmentShader.rgb in H1.
    cbn [FragmentShader.r FragmentShader.g FragmentShader.b FragmentShader.a]
      in H1, H2.
    congruence. }
  apply E.
  - now rewrite !main_real.
  - now rewrite !Ha.
Qed.

Lemma shader_output_range_witness :
  (0 < 2 /\ 0 < 1 /\ 0 <= 1 /\ 0 < 1 * 1 * 1
   /\ 0 < FragmentShader.getLuminance (T := R) (FragmentShader.Vec4 3 3 3 0))
  /\ FragmentShader.a
       (FragmentShader.main (T := R) 1 2 1 1 1 (FragmentShader.Vec4 3 3 3 0)) = 1.
Proof.
  assert (HL : 0 < FragmentShader.getLuminance (T := R) (FragmentShader.Vec4 3 3 3 0)).
  { unfold FragmentShader.getLuminance.
    cbn [FragmentShader.r FragmentShader.g FragmentShader.b].
    destruct real_ops as (-> & -> & _).
    replace (lit 212671 6 * 3 + lit 71516 5 * 3 + lit 72169 6 * 3)
      with ((lit 212671 6 + lit 71516 5 + lit 72169 6) * 3) by ring.
    rewrite luminance_weights_sum. lra. }
  split; [repeat split; try lra; exact HL|].
  exact (proj1 (proj2 (shader_output_range 1 2 1 1 1 (FragmentShader.Vec4 3 3 3 0)
                         ltac:(lra) ltac:(lra) ltac:(lra) ltac:(lra) HL))).
Defined.

End ShaderRange.
